(** * Pokemon dashboard: the data-fetching and state-coordination layer of
    [src/App.tsx], as a small-step machine over the six React state cells.

    The component [App] owns six [useState] cells and two [async] functions,
    [fetchPokemonList] and [fetchPokemonDetails].  An [async] function runs
    synchronously up to its next [await], where it is suspended until the
    awaited promise settles; the browser has one thread, so the code between
    two [await]s is atomic.  The machine below has one transition per such
    block: a user action starts a new call, and the environment settles the
    promise a call is suspended on.  The network and [Math.random] are
    the environment: their answers are the labels and the [entropy] supply.
    The machine also records the argument of every [fetch], in order.

    A result of [Math.random] is a double of [0, 1), given as the fraction
    of its significand, and line 51 is computed as the double arithmetic
    computes it: the product rounded to nearest, ties to even, then floored.
    The state updates of one block take effect together, as React applies
    the batch of a continuation.  One input is outside the model: an index
    whose [results] is an object with a [length] that is not a small count,
    [null] or a boolean; the step that receives it is refused. *)

From Stdlib Require Import QArith Qround.
From stdpp Require Import gmap strings list fin_maps pretty.

Open Scope string_scope.
Open Scope nat_scope.
Open Scope list_scope.

(** ** Runtime values

    [response.json()] yields an arbitrary JSON value and the state cells are
    typed [any], so values are untyped.  A number is the rational value of
    the parsed double; a string is the sequence of its code units; an object
    is the association list of its own properties. *)

#[warnings="-register-all"]
Inductive jsval : Type :=
| JUndefined
| JNull
| JBool (b : bool)
| JNum (q : Q)
| JStr (s : string)
| JArr (l : list jsval)
| JObj (o : list (string * jsval)).

(** An expression either yields a value or throws. *)
Inductive completion (A : Type) : Type :=
| Normal (a : A)
| Throw.
Arguments Normal {A} a.
Arguments Throw {A}.

#[global] Instance completion_bind : MBind completion :=
  fun A B (k : A -> completion B) (c : completion A) =>
    match c with
    | Normal a => k a
    | Throw => Throw
    end.

Module Js.

(** Own-property lookup in an object literal. *)
Fixpoint lookup (k : string) (o : list (string * jsval)) : option jsval :=
  match o with
  | [] => None
  | (k', v) :: o' => if String.eqb k k' then Some v else lookup k o'
  end.

(** [v.k] for a property name [k] that no built-in prototype defines (every
    name this program reads: results, url, name, sprites, front_default,
    species, flavor_text_entries, flavor_text).  Reading a property of
    [undefined] or [null] throws a TypeError; a primitive or an array has
    no such property. *)
Definition get (v : jsval) (k : string) : completion jsval :=
  match v with
  | JUndefined | JNull => Throw
  | JObj o => Normal (default JUndefined (lookup k o))
  | _ => Normal JUndefined
  end.

(** [v[0]]. *)
Definition get0 (v : jsval) : completion jsval :=
  match v with
  | JUndefined | JNull => Throw
  | JArr l => Normal (default JUndefined (head l))
  | JStr s =>
      Normal (match s with
              | EmptyString => JUndefined
              | String c _ => JStr (String c EmptyString)
              end)
  | JObj o => Normal (default JUndefined (lookup "0" o))
  | _ => Normal JUndefined
  end.

(** [v?.k]: short-circuits to [undefined] on [undefined] and [null]. *)
Definition get_opt (v : jsval) (k : string) : completion jsval :=
  match v with
  | JUndefined | JNull => Normal JUndefined
  | _ => get v k
  end.

(** ToBoolean. *)
Definition truthy (v : jsval) : bool :=
  match v with
  | JUndefined | JNull => false
  | JBool b => b
  | JNum q => negb (Qnum q =? 0)%Z
  | JStr s => negb (String.eqb s "")
  | JArr _ | JObj _ => true
  end.

(** [a || b] with [b] a constant. *)
Definition or_else (a b : jsval) : jsval := if truthy a then a else b.

(** [{ ...o, k: v }] on the property list: an existing key keeps its place
    and takes the new value, a new key is appended. *)
Fixpoint set (k : string) (v : jsval) (o : list (string * jsval))
  : list (string * jsval) :=
  match o with
  | [] => [(k, v)]
  | (k', v') :: o' =>
      if String.eqb k k' then (k', v) :: o' else (k', v') :: set k v o'
  end.

(** Decimal index keys, for spreading an array or a string. *)
Fixpoint indexed (i : nat) (l : list jsval) : list (string * jsval) :=
  match l with
  | [] => []
  | v :: l' => (pretty i, v) :: indexed (S i) l'
  end.

Fixpoint chars (s : string) : list jsval :=
  match s with
  | EmptyString => []
  | String c s' => JStr (String c EmptyString) :: chars s'
  end.

(** The own enumerable properties copied by [...v]. *)
Definition spread (v : jsval) : list (string * jsval) :=
  match v with
  | JObj o => o
  | JArr l => indexed 0 l
  | JStr s => indexed 0 (chars s)
  | _ => []
  end.

End Js.

(** ** The six state cells of [App] (lines 32-37) *)

Record AppState : Type := {
  pokemonList : jsval;
  selectedPokemon : jsval;
  loading : bool;
  detailsLoading : bool;
  error : option string;
  detailsError : option string
}.

(** The first render: the arguments of the six [useState] calls. *)
Definition initialState : AppState :=
  {| pokemonList := JArr [];
     selectedPokemon := JNull;
     loading := false;
     detailsLoading := false;
     error := None;
     detailsError := None |}.

Definition setPokemonList (v : jsval) (s : AppState) : AppState :=
  {| pokemonList := v; selectedPokemon := selectedPokemon s;
     loading := loading s; detailsLoading := detailsLoading s;
     error := error s; detailsError := detailsError s |}.

Definition setSelectedPokemon (v : jsval) (s : AppState) : AppState :=
  {| pokemonList := pokemonList s; selectedPokemon := v;
     loading := loading s; detailsLoading := detailsLoading s;
     error := error s; detailsError := detailsError s |}.

Definition setLoading (b : bool) (s : AppState) : AppState :=
  {| pokemonList := pokemonList s; selectedPokemon := selectedPokemon s;
     loading := b; detailsLoading := detailsLoading s;
     error := error s; detailsError := detailsError s |}.

Definition setDetailsLoading (b : bool) (s : AppState) : AppState :=
  {| pokemonList := pokemonList s; selectedPokemon := selectedPokemon s;
     loading := loading s; detailsLoading := b;
     error := error s; detailsError := detailsError s |}.

Definition setError (e : option string) (s : AppState) : AppState :=
  {| pokemonList := pokemonList s; selectedPokemon := selectedPokemon s;
     loading := loading s; detailsLoading := detailsLoading s;
     error := e; detailsError := detailsError s |}.

Definition setDetailsError (e : option string) (s : AppState) : AppState :=
  {| pokemonList := pokemonList s; selectedPokemon := selectedPokemon s;
     loading := loading s; detailsLoading := detailsLoading s;
     error := error s; detailsError := e |}.

(** ** The sampling loop (lines 47-56) *)

Definition sampleSize : nat := 10.

(** The 53 leading bits of a positive integer [M], rounded to nearest with
    ties to even, and the number of bits dropped: IEEE 754 rounding of
    [M * 2^e] to a double, for any exponent [e] at which no bit falls below
    the least subnormal. *)
Definition roundTo53 (M : Z) : Z * Z :=
  let s := (Z.log2 M + 1 - 53)%Z in
  if (s <=? 0)%Z then (M, 0%Z)
  else
    let q := (M / 2 ^ s)%Z in
    let rem := (M mod 2 ^ s)%Z in
    let half := (2 ^ (s - 1))%Z in
    let q' := if (rem <? half)%Z then q
              else if (half <? rem)%Z then (q + 1)%Z
              else if Z.even q then q else (q + 1)%Z in
    (q', s).

(** [Math.floor(Math.random() * n)] for the draw [r], a double of [0, 1)
    written as the fraction [m / 2^t] of its significand, and the length [n]:
    the product [m * n / 2^t] is rounded to a double, as the multiplication
    of line 51 rounds it, and the double is floored.  (A length is below
    [2^32] and so is a double itself; dividing by [2^t] only shifts the
    exponent, down to no less than that of [r].) *)
Definition randomIndexOf (r : Q) (n : nat) : nat :=
  let (q, s) := roundTo53 (Qnum r * Z.of_nat n) in
  Z.to_nat ((q * 2 ^ s) / Z.pos (Qden r)).

(** [while (randomPokemon.length < 10) { ... }].  One draw of [entropy] is
    one call of [Math.random]; [None] says that the loop is still running
    when the supply is used up.  An index past the end of [results] reads
    [undefined]. *)
Fixpoint sampleLoop (entropy : list Q) (results : list jsval)
    (usedIndices : gset nat) (randomPokemon : list jsval)
  : option (list jsval * list Q) :=
  if decide (length randomPokemon < sampleSize) then
    match entropy with
    | [] => None
    | r :: entropy' =>
        let randomIndex := randomIndexOf r (length results) in
        if decide (randomIndex ∈ usedIndices) then
          sampleLoop entropy' results usedIndices randomPokemon
        else
          sampleLoop entropy' results ({[randomIndex]} ∪ usedIndices)
            (randomPokemon ++ [default JUndefined (results !! randomIndex)])
    end
  else Some (randomPokemon, entropy).

(** Lines 47-48 and the loop. *)
Definition sample (entropy : list Q) (results : list jsval)
  : option (list jsval * list Q) :=
  sampleLoop entropy results ∅ [].

(** ** Suspended calls

    A [call] is an invocation of one of the two [async] functions, suspended
    at one of its [await]s; it records the locals that are live there. *)

Inductive call : Type :=
| ListIndexResponse                      (* line 44, [await fetch(...)] *)
| ListIndexJson                          (* line 45, [await response.json()] *)
| ListItemResponse (pokemon : jsval) (rest pokemonWithImages : list jsval)
                                         (* line 60 *)
| ListItemJson (pokemon : jsval) (rest pokemonWithImages : list jsval)
                                         (* line 61 *)
| DetailResponse                         (* line 83 *)
| DetailJson                             (* line 84 *)
| SpeciesResponse (data : jsval)         (* line 86 *)
| SpeciesJson (data : jsval).            (* line 87 *)

(** How the awaited promise settles.  [fetch] rejects on a network error and
    otherwise resolves with a response, whatever its status code;
    [response.json()] rejects when the body is not JSON and otherwise
    resolves with the parsed value. *)
Inductive settlement : Type :=
| Rejected
| Response (status : nat)
| Body (v : jsval).

(** What a call does when it is resumed, up to its next [await]; [entropy]
    is what the block leaves of the supply of draws.  [Hang]: the block is
    still running when the supply ends. *)
Inductive outcome : Type :=
| Suspend (t : call) (request : option jsval) (entropy : list Q)
| Finish (update : AppState -> AppState) (entropy : list Q)
| Hang
| Refuse.

Definition indexUrl : string := "https://pokeapi.co/api/v2/pokemon?limit=1000".
Definition listErrorMessage : string := "Failed to load Pokemon".
Definition detailsErrorMessage : string := "Failed to load Pokemon details".
Definition noDescription : string := "No description".

(** [catch] then [finally] of [fetchPokemonList] (lines 70-75). *)
Definition listFailed (s : AppState) : AppState :=
  setLoading false (setError (Some listErrorMessage) s).

(** Line 69 then [finally]. *)
Definition listLoaded (pokemonWithImages : list jsval) (s : AppState) : AppState :=
  setLoading false (setPokemonList (JArr pokemonWithImages) s).

(** [catch] then [finally] of [fetchPokemonDetails] (lines 93-98). *)
Definition detailsFailed (s : AppState) : AppState :=
  setDetailsLoading false (setDetailsError (Some detailsErrorMessage) s).

(** Lines 89-92 then [finally]. *)
Definition detailsLoaded (record : jsval) (s : AppState) : AppState :=
  setDetailsLoading false (setSelectedPokemon record s).

(** The object literal of lines 62-66. *)
Definition previewItem (pokemon details : jsval) : completion jsval :=
  name ← Js.get pokemon "name";
  url ← Js.get pokemon "url";
  sprites ← Js.get details "sprites";
  image ← Js.get sprites "front_default";
  Normal (JObj [("name", name); ("url", url); ("image", image)]).

(** The head of the [for ... of] loop (line 59) and the call of line 60. *)
Definition nextItem (todo pokemonWithImages : list jsval) (entropy : list Q)
  : outcome :=
  match todo with
  | [] => Finish (listLoaded pokemonWithImages) entropy
  | pokemon :: rest =>
      match Js.get pokemon "url" with
      | Throw => Finish listFailed entropy
      | Normal url =>
          Suspend (ListItemResponse pokemon rest pokemonWithImages) (Some url) entropy
      end
  end.

(** The elements [o[0]], ..., [o[n - 1]] of an object read as an array of
    length [n]; an index is looked up under its decimal name. *)
Definition elementsOf (o : list (string * jsval)) (n : nat) : list jsval :=
  map (λ i, default JUndefined (Js.lookup (pretty i) o)) (seq 0 n).

(** The number [q] when it is an integer from 0 up to, not including,
    [2^53]. *)
Definition smallCount (q : Q) : option nat :=
  if ((0 <=? Qnum q) && (Qnum q mod Z.pos (Qden q) =? 0)
      && (Qnum q / Z.pos (Qden q) <? 2 ^ 53))%Z
  then Some (Z.to_nat (Qnum q / Z.pos (Qden q)))
  else None.

(** What lines 51 and 54 find in [data.results].  An array has its length
    and elements; so has a string, whose elements are its characters, and an
    object whose [length] is a small count.  On a [null] index or a missing
    or [null] [results], reading [.length] throws.  A number or a boolean
    has no [length], and neither has an object without that property: the
    length is [undefined], the index [NaN] at every draw; an object whose
    [length] is [null] or a boolean has length 0 or 1, the index 0 at every
    draw.  An object with any other [length] (a fraction, a negative or
    large number, a string, an array, an object) is outside this model: the
    length would go through ToNumber and the index through ToString. *)
Inductive resultsShape : Type :=
| Indexed (results : list jsval)
| Missing
| OneIndex
| Unmodelled.

Definition resultsOf (data : jsval) : resultsShape :=
  match Js.get data "results" with
  | Throw | Normal JUndefined | Normal JNull => Missing
  | Normal (JArr results) => Indexed results
  | Normal (JStr s) => Indexed (Js.chars s)
  | Normal (JBool _) | Normal (JNum _) => OneIndex
  | Normal (JObj o) =>
      match Js.lookup "length" o with
      | None | Some JUndefined | Some JNull | Some (JBool _) => OneIndex
      | Some (JNum q) =>
          match smallCount q with
          | Some n => Indexed (elementsOf o n)
          | None => Unmodelled
          end
      | Some _ => Unmodelled
      end
  end.

(** Lines 47-59 on the parsed index.  Line 51 calls [Math.random] before it
    reads [data.results.length]: a draw is taken even when that read throws.
    With one index only the loop never has ten and never returns. *)
Definition sampleIndex (data : jsval) (entropy : list Q) : outcome :=
  match resultsOf data with
  | Missing =>
      match entropy with
      | [] => Hang
      | _ :: entropy' => Finish listFailed entropy'
      end
  | Indexed results =>
      match sample entropy results with
      | None => Hang
      | Some (randomPokemon, entropy') => nextItem randomPokemon [] entropy'
      end
  | OneIndex => Hang
  | Unmodelled => Refuse
  end.

(** [data.species.url] (line 86). *)
Definition speciesUrl (data : jsval) : completion jsval :=
  species ← Js.get data "species";
  Js.get species "url".

(** [speciesData.flavor_text_entries[0]?.flavor_text || 'No description']. *)
Definition description (speciesData : jsval) : completion jsval :=
  entries ← Js.get speciesData "flavor_text_entries";
  first ← Js.get0 entries;
  text ← Js.get_opt first "flavor_text";
  Normal (Js.or_else text (JStr noDescription)).

(** [{ ...data, description: ... }] (lines 89-92). *)
Definition detailRecord (data speciesData : jsval) : completion jsval :=
  d ← description speciesData;
  Normal (JObj (Js.set "description" d (Js.spread data))).

Definition resume (t : call) (r : settlement) (entropy : list Q) : outcome :=
  match t, r with
  | ListIndexResponse, Rejected => Finish listFailed entropy
  | ListIndexResponse, Response _ => Suspend ListIndexJson None entropy
  | ListIndexJson, Rejected => Finish listFailed entropy
  | ListIndexJson, Body data => sampleIndex data entropy
  | ListItemResponse _ _ _, Rejected => Finish listFailed entropy
  | ListItemResponse pokemon rest acc, Response _ =>
      Suspend (ListItemJson pokemon rest acc) None entropy
  | ListItemJson _ _ _, Rejected => Finish listFailed entropy
  | ListItemJson pokemon rest acc, Body details =>
      match previewItem pokemon details with
      | Throw => Finish listFailed entropy
      | Normal item => nextItem rest (acc ++ [item]) entropy
      end
  | DetailResponse, Rejected => Finish detailsFailed entropy
  | DetailResponse, Response _ => Suspend DetailJson None entropy
  | DetailJson, Rejected => Finish detailsFailed entropy
  | DetailJson, Body data =>
      match speciesUrl data with
      | Throw => Finish detailsFailed entropy
      | Normal url => Suspend (SpeciesResponse data) (Some url) entropy
      end
  | SpeciesResponse _, Rejected => Finish detailsFailed entropy
  | SpeciesResponse data, Response _ => Suspend (SpeciesJson data) None entropy
  | SpeciesJson _, Rejected => Finish detailsFailed entropy
  | SpeciesJson data, Body speciesData =>
      match detailRecord data speciesData with
      | Throw => Finish detailsFailed entropy
      | Normal record => Finish (detailsLoaded record) entropy
      end
  | _, _ => Refuse
  end.

(** ** The machine *)

Record machine : Type := {
  ui : AppState;                 (* the state cells *)
  calls : gmap nat call;         (* the suspended calls *)
  next : nat;                    (* how many calls were started *)
  fetched : list jsval;          (* the arguments of the [fetch] calls so far *)
  entropy : list Q               (* the coming results of [Math.random] *)
}.

Definition boot (entropy : list Q) : machine :=
  {| ui := initialState; calls := ∅; next := 0; fetched := []; entropy := entropy |}.

(** A call of an [async] function, up to its first [await]. *)
Definition start (t : call) (url : jsval) (s : AppState) (m : machine) : machine :=
  {| ui := s;
     calls := <[next m := t]> (calls m);
     next := S (next m);
     fetched := fetched m ++ [url];
     entropy := entropy m |}.

(** Lines 39-44. *)
Definition fetchPokemonList (m : machine) : machine :=
  start ListIndexResponse (JStr indexUrl)
    (setError None (setLoading true (ui m))) m.

(** Lines 78-83. *)
Definition fetchPokemonDetails (url : jsval) (m : machine) : machine :=
  start DetailResponse url
    (setDetailsError None (setDetailsLoading true (ui m))) m.

(** Line 129: [selectedPokemon && fetchPokemonDetails(selectedPokemon.species.url)].
    A handler that throws leaves the state as it is. *)
Definition onRetry (m : machine) : machine :=
  if Js.truthy (selectedPokemon (ui m)) then
    match speciesUrl (selectedPokemon (ui m)) with
    | Normal url => fetchPokemonDetails url m
    | Throw => m
    end
  else m.

Inductive label : Type :=
| Mount                                  (* the effect of lines 101-103 *)
| Refresh                                (* [handleRefresh] *)
| Select (url : string)                  (* [handleSelectPokemon] *)
| Retry                                  (* [onRetry] *)
| Settle (cid : nat) (r : settlement).   (* the promise of call [cid] settles *)

Inductive result : Type :=
| Ok (m : machine)
| Hangs              (* the sampling block has not returned when the supply of
                        draws ends *)
| Refused.           (* the label is not enabled *)

Definition settle (cid : nat) (r : settlement) (m : machine) : result :=
  match calls m !! cid with
  | None => Refused
  | Some t =>
      match resume t r (entropy m) with
      | Suspend t' request entropy' =>
          Ok {| ui := ui m;
                calls := <[cid := t']> (calls m);
                next := next m;
                fetched := fetched m ++ option_list request;
                entropy := entropy' |}
      | Finish update entropy' =>
          Ok {| ui := update (ui m);
                calls := delete cid (calls m);
                next := next m;
                fetched := fetched m;
                entropy := entropy' |}
      | Hang => Hangs
      | Refuse => Refused
      end
  end.

(** The effect runs once, before anything else. *)
Definition step (l : label) (m : machine) : result :=
  match l with
  | Mount => if decide (next m = 0) then Ok (fetchPokemonList m) else Refused
  | Refresh => Ok (fetchPokemonList m)
  | Select url => Ok (fetchPokemonDetails (JStr url) m)
  | Retry => Ok (onRetry m)
  | Settle cid r => settle cid r m
  end.

Fixpoint exec (trace : list label) (m : machine) : result :=
  match trace with
  | [] => Ok m
  | l :: trace' =>
      match step l m with
      | Ok m' => exec trace' m'
      | r => r
      end
  end.

Definition reachable (m : machine) : Prop :=
  ∃ entropy trace, exec trace (boot entropy) = Ok m.

(** One full [fetch] and [json()] exchange, as the labels that deliver it. *)
Inductive exchange : Type :=
| NetworkError
| BadBody (status : nat)
| Reply (status : nat) (v : jsval).

Definition deliver (cid : nat) (x : exchange) : list label :=
  match x with
  | NetworkError => [Settle cid Rejected]
  | BadBody status => [Settle cid (Response status); Settle cid Rejected]
  | Reply status v => [Settle cid (Response status); Settle cid (Body v)]
  end.

Definition deliverAll (cid : nat) (xs : list exchange) : list label :=
  xs ≫= deliver cid.

(** ** Vocabulary of the statements *)

(** A result of [Math.random]: a double of [0, 1), that is a fraction
    [m / 2^t] with [m] of at most 53 bits and [t] at most 1074. *)
Definition unitDraw (r : Q) : Prop :=
  (0 <= r)%Q ∧ (r < 1)%Q ∧
  (Qnum r < 2 ^ 53)%Z ∧
  Z.pos (Qden r) = (2 ^ Z.log2 (Z.pos (Qden r)))%Z ∧
  (Z.log2 (Z.pos (Qden r)) <= 1074)%Z.

(** [results[i]]. *)
Definition pick (results : list jsval) (i : nat) : jsval :=
  default JUndefined (results !! i).

(** The indices a sequence of draws selects: each index once, in the order
    in which it was first drawn, after those of [seen]. *)
Fixpoint selection (seen draws : list nat) : list nat :=
  match draws with
  | [] => seen
  | i :: draws' =>
      if decide (i ∈ seen) then selection seen draws'
      else selection (seen ++ [i]) draws'
  end.

Definition drawnIndices (n : nat) (entropy : list Q) : list nat :=
  map (λ r, randomIndexOf r n) entropy.

(** A list call that is waiting for a preview ([fetch] or [json()] of lines
    60-61), and a settlement that makes that preview fail: the promise
    rejects, or the parsed record has no [sprites] to read the image from. *)
Definition previewFails (t : call) (r : settlement) : bool :=
  match t, r with
  | ListItemResponse _ _ _, Rejected => true
  | ListItemJson _ _ _, Rejected => true
  | ListItemJson pokemon _ _, Body details =>
      match previewItem pokemon details with
      | Throw => true
      | Normal _ => false
      end
  | _, _ => false
  end.

(** The labels that settle a promise of call [cid]. *)
Definition settlesOf (cid : nat) (l : label) : bool :=
  match l with
  | Settle cid' _ => bool_decide (cid' = cid)
  | _ => false
  end.

(** [loading] is [true] after every step of the trace. *)
Fixpoint loadingThroughout (trace : list label) (m : machine) : Prop :=
  match trace with
  | [] => True
  | l :: trace' =>
      match step l m with
      | Ok m' => loading (ui m') = true ∧ loadingThroughout trace' m'
      | _ => False
      end
  end.

(** How a resumed call can finish: the four exits of the two functions. *)
Inductive finishes : call → settlement → (AppState → AppState) → Prop :=
| finishes_listFailed t r :
    match t with
    | ListIndexResponse | ListIndexJson
    | ListItemResponse _ _ _ | ListItemJson _ _ _ => True
    | _ => False
    end →
    finishes t r listFailed
| finishes_listLoaded pokemon acc details item :
    previewItem pokemon details = Normal item →
    finishes (ListItemJson pokemon [] acc) (Body details)
      (listLoaded (acc ++ [item]))
| finishes_detailsFailed t r :
    match t with
    | DetailResponse | DetailJson | SpeciesResponse _ | SpeciesJson _ => True
    | _ => False
    end →
    finishes t r detailsFailed
| finishes_detailsLoaded data speciesData record :
    detailRecord data speciesData = Normal record →
    finishes (SpeciesJson data) (Body speciesData) (detailsLoaded record).

(** How one step can change the state cells. *)
Inductive uiChange (s : AppState) : AppState → Prop :=
| uiChange_none : uiChange s s
| uiChange_listStart : uiChange s (setError None (setLoading true s))
| uiChange_detailsStart :
    uiChange s (setDetailsError None (setDetailsLoading true s))
| uiChange_listFailed : uiChange s (listFailed s)
| uiChange_listLoaded items : uiChange s (listLoaded items s)
| uiChange_detailsFailed : uiChange s (detailsFailed s)
| uiChange_detailsLoaded record : uiChange s (detailsLoaded record s).

(** [completes c script update]: the settlements of [script], delivered in
    this order, carry the suspended call [c] to its end, where it applies
    [update] to the state cells.  (A call still waiting for the index is not
    of this kind: what it does next depends on the draws.) *)
Fixpoint completes (c : call) (script : list settlement)
    (update : AppState → AppState) : Prop :=
  match script with
  | [] => False
  | r :: script' =>
      match script' with
      | [] => ∀ e, resume c r e = Finish update e
      | _ :: _ =>
          ∃ c' request,
            (∀ e, resume c r e = Suspend c' request e) ∧
            completes c' script' update
      end
  end.

(** The interleavings of the settlements of two calls [a] and [b]. *)
Inductive interleaved (a b : nat)
  : list settlement → list settlement → list label → Prop :=
| interleaved_left xs : interleaved a b xs [] (map (Settle a) xs)
| interleaved_right ys : interleaved a b [] ys (map (Settle b) ys)
| interleaved_a x xs ys trace :
    interleaved a b xs ys trace →
    interleaved a b (x :: xs) ys (Settle a x :: trace)
| interleaved_b y xs ys trace :
    interleaved a b xs ys trace →
    interleaved a b xs (y :: ys) (Settle b y :: trace).

(** The last label of the trace settles a promise of call [cid]. *)
Definition settlesLast (cid : nat) (trace : list label) : bool :=
  match last trace with
  | Some l => settlesOf cid l
  | None => false
  end.

(** [pokemon.url] as passed to [fetch], and the preview built from an entry
    and its record, where these expressions do not throw. *)
Definition urlOf (pokemon : jsval) : jsval :=
  match Js.get pokemon "url" with
  | Normal url => url
  | Throw => JUndefined
  end.

Definition itemOf (pokemon details : jsval) : jsval :=
  match previewItem pokemon details with
  | Normal item => item
  | Throw => JUndefined
  end.

Definition fetchable (pokemon : jsval) : Prop := Js.get pokemon "url" ≠ Throw.

Definition parses (pokemon details : jsval) : Prop :=
  previewItem pokemon details ≠ Throw.

(** ** Concrete catalogue data for the examples *)

Module Fixture.

Definition pokemonUrl (i : nat) : string :=
  "https://pokeapi.co/api/v2/pokemon/" +:+ pretty i +:+ "/".

Definition speciesUrlOf (i : nat) : string :=
  "https://pokeapi.co/api/v2/pokemon-species/" +:+ pretty i +:+ "/".

Definition imageUrl (i : nat) : string :=
  "https://img.example/sprites/" +:+ pretty i +:+ ".png".

(** An element of the index's [results]. *)
Definition entry (i : nat) : jsval :=
  JObj [("name", JStr ("pokemon-" +:+ pretty i)); ("url", JStr (pokemonUrl i))].

Definition entries (n : nat) : list jsval := map entry (seq 1 n).

Definition index (n : nat) : jsval :=
  JObj [("count", JNum (inject_Z (Z.of_nat n))); ("results", JArr (entries n))].

(** A primary record, with a [description] of its own. *)
Definition pokemon (i : nat) : jsval :=
  JObj [("id", JNum (inject_Z (Z.of_nat i)));
        ("description", JStr "primary");
        ("sprites", JObj [("front_default", JStr (imageUrl i))]);
        ("species", JObj [("url", JStr (speciesUrlOf i))])].

(** A secondary record with the given description texts. *)
Definition species (texts : list string) : jsval :=
  JObj [("flavor_text_entries",
         JArr (map (λ t, JObj [("flavor_text", JStr t)]) texts))].

(** The detail record the code builds from [pokemon i]. *)
Definition detail (i : nat) (text : string) : jsval :=
  JObj [("id", JNum (inject_Z (Z.of_nat i)));
        ("description", JStr text);
        ("sprites", JObj [("front_default", JStr (imageUrl i))]);
        ("species", JObj [("url", JStr (speciesUrlOf i))])].

(** The preview item the code builds from [entry i] and [pokemon i]. *)
Definition preview (i : nat) : jsval :=
  JObj [("name", JStr ("pokemon-" +:+ pretty i));
        ("url", JStr (pokemonUrl i));
        ("image", JStr (imageUrl i))].

(** Draws that select the indices [from], ..., [from + 9] of an array of
    length [n], in this order: doubles with ten fractional bits. *)
Definition draws (n from : nat) : list Q :=
  map (λ i, Z.of_nat (i * 1024 / n + 1) # 1024)%Q (seq from 10).

(** A whole list load of call [cid]: the index of [n] entries, then the
    previews of the entries [from], ..., [from + 9]. *)
Definition listLoad (cid n from : nat) : list label :=
  deliver cid (Reply 200 (index n)) ++
  deliverAll cid (map (λ i, Reply 200 (pokemon i)) (seq from 10)).

(** A whole expanded resolution of call [cid]. *)
Definition detailLoad (cid i : nat) (texts : list string) : list label :=
  deliver cid (Reply 200 (pokemon i)) ++ deliver cid (Reply 200 (species texts)).

(** The machine a trace leads to from the first render. *)
Definition after (trace : list label) (entropy : list Q) : machine :=
  match exec trace (boot entropy) with
  | Ok m => m
  | _ => boot entropy
  end.

End Fixture.

(** The text of the first entry of a description list, [undefined] when
    there is none. *)
Definition firstText (entries : list jsval) : jsval :=
  match entries with
  | JObj o :: _ => default JUndefined (Js.lookup "flavor_text" o)
  | _ => JUndefined
  end.

(** ** Vocabulary of the invariants *)

(** The calls of [fetchPokemonList]; the others are calls of
    [fetchPokemonDetails]. *)
Definition isListCall (c : call) : bool :=
  match c with
  | ListIndexResponse | ListIndexJson
  | ListItemResponse _ _ _ | ListItemJson _ _ _ => true
  | _ => false
  end.

(** The labels that run code of [fetchPokemonList]. *)
Definition listLabel (m : machine) (l : label) : bool :=
  match l with
  | Mount | Refresh => true
  | Select _ | Retry => false
  | Settle cid _ =>
      match calls m !! cid with
      | Some c => isListCall c
      | None => false
      end
  end.

(** The cells each function writes. *)
Definition listCells (s : AppState) : jsval * bool * option string :=
  (pokemonList s, loading s, error s).

Definition detailCells (s : AppState) : jsval * bool * option string :=
  (selectedPokemon s, detailsLoading s, detailsError s).

(** An object as the literal of lines 62-66 builds it. *)
Definition isPreview (v : jsval) : Prop :=
  ∃ name url image, v = JObj [("name", name); ("url", url); ("image", image)].

Definition listCellOk (v : jsval) : Prop :=
  ∃ items,
    v = JArr items ∧
    (items = [] ∨ length items = sampleSize) ∧
    Forall isPreview items.

Definition detailCellOk (v : jsval) : Prop :=
  v = JNull ∨
  ∃ o d url,
    v = JObj o ∧
    Js.lookup "description" o = Some d ∧
    Js.truthy d = true ∧
    speciesUrl v = Normal url.

(** What the locals of a suspended call satisfy. *)
Definition wellFormedCall (c : call) : Prop :=
  match c with
  | ListItemResponse _ rest acc | ListItemJson _ rest acc =>
      length acc + S (length rest) = sampleSize ∧ Forall isPreview acc
  | SpeciesResponse data | SpeciesJson data => speciesUrl data ≠ Throw
  | _ => True
  end.

Record consistent (m : machine) : Prop := {
  fresh_ids : ∀ cid c, calls m !! cid = Some c → cid < next m;
  calls_wf : ∀ cid c, calls m !! cid = Some c → wellFormedCall c;
  list_shape : listCellOk (pokemonList (ui m));
  detail_shape : detailCellOk (selectedPokemon (ui m));
  loading_pending :
    loading (ui m) = true →
    ∃ cid c, calls m !! cid = Some c ∧ isListCall c = true;
  detailsLoading_pending :
    detailsLoading (ui m) = true →
    ∃ cid c, calls m !! cid = Some c ∧ isListCall c = false
}.

(** A settlement that makes an expanded resolution fail: a promise rejects,
    the primary record has no [species] to read the URL from, or the
    secondary record has no description list to index. *)
Definition detailFails (c : call) (r : settlement) : bool :=
  match c, r with
  | DetailResponse, Rejected | DetailJson, Rejected
  | SpeciesResponse _, Rejected | SpeciesJson _, Rejected => true
  | DetailJson, Body data =>
      match speciesUrl data with
      | Throw => true
      | Normal _ => false
      end
  | SpeciesJson data, Body speciesData =>
      match detailRecord data speciesData with
      | Throw => true
      | Normal _ => false
      end
  | _, _ => false
  end.

(** An index exchange that makes a list load fail before any preview is
    fetched: the fetch rejects, the body is not JSON, or the parsed index is
    [null] or has no [results]. *)
Definition indexExchangeFails (x : exchange) : bool :=
  match x with
  | NetworkError | BadBody _ => true
  | Reply _ data =>
      match Js.get data "results" with
      | Throw | Normal JUndefined | Normal JNull => true
      | Normal _ => false
      end
  end.

(** Every label of the trace satisfies [p] in the state it is taken from. *)
Fixpoint along (p : machine → label → bool) (trace : list label) (m : machine)
  : Prop :=
  match trace with
  | [] => True
  | l :: trace' =>
      p m l = true ∧
      match step l m with
      | Ok m' => along p trace' m'
      | _ => True
      end
  end.

(** The labels that end an expanded resolution, and a list load, with
    success: the last body of the call arrives and its reads do not throw. *)
Definition endsDetail (m : machine) (l : label) : bool :=
  match l with
  | Settle cid (Body speciesData) =>
      match calls m !! cid with
      | Some (SpeciesJson data) =>
          match detailRecord data speciesData with
          | Normal _ => true
          | Throw => false
          end
      | _ => false
      end
  | _ => false
  end.

Definition endsList (m : machine) (l : label) : bool :=
  match l with
  | Settle cid (Body details) =>
      match calls m !! cid with
      | Some (ListItemJson pokemon [] _) =>
          match previewItem pokemon details with
          | Normal _ => true
          | Throw => false
          end
      | _ => false
      end
  | _ => false
  end.

(** A property read throws in the block that receives the parsed body [v]:
    [data.results.length] on the index, [pokemon.url] on the entry to fetch
    next, the reads of the preview literal, [data.species.url], or the reads
    of the description. *)
Definition readThrows (c : call) (v : jsval) (e : list Q) : Prop :=
  match c with
  | ListIndexJson =>
      resultsOf v = Missing ∨
      ∃ results pokemon rest e',
        resultsOf v = Indexed results ∧
        sample e results = Some (pokemon :: rest, e') ∧
        Js.get pokemon "url" = Throw
  | ListItemJson pokemon rest _ =>
      previewItem pokemon v = Throw ∨
      ∃ following rest', rest = following :: rest' ∧ Js.get following "url" = Throw
  | DetailJson => speciesUrl v = Throw
  | SpeciesJson _ => description v = Throw
  | _ => False
  end.

(** [null] and [undefined]. *)
Definition nullish (v : jsval) : bool :=
  match v with
  | JUndefined | JNull => true
  | _ => false
  end.

(** [detailsLoading] is [true] after every step of the trace. *)
Fixpoint detailsLoadingThroughout (trace : list label) (m : machine) : Prop :=
  match trace with
  | [] => True
  | l :: trace' =>
      match step l m with
      | Ok m' => detailsLoading (ui m') = true ∧ detailsLoadingThroughout trace' m'
      | _ => False
      end
  end.

(** The updates of the four exits differ as functions. *)
Ltac exits_differ H :=
  apply (f_equal (λ u, (error (u initialState), detailsError (u initialState),
                        loading (u (setLoading true initialState)))))
    in H; discriminate H.

(** The machine the rest of the trace runs from. *)
Ltac next_machine k :=
  lazymatch goal with
  | |- ∃ _, exec _ ?m1 = _ ∧ _ => k m1
  end.

Ltac unit_draws :=
  lazymatch goal with
  | |- Forall unitDraw ?e =>
      let e' := eval vm_compute in e in
      change (Forall unitDraw e');
      repeat first
        [ apply Forall_nil_2
        | apply Forall_cons_2; [repeat split; by vm_compute |] ]
  end.

(** ** The sampler *)

Section Sampler.

Variable results : list jsval.

Lemma roundTo53_exact (M : Z) :
  (Z.log2 M + 1 - 53 <= 0)%Z → roundTo53 M = (M, 0%Z).
Proof.
  intros Hs. unfold roundTo53. by rewrite (proj2 (Z.leb_le _ _) Hs).
Qed.

(** Rounding moves a number by at most half a unit in its last place, and
    the number has 52 bits more than that half unit. *)
Lemma roundTo53_bounds (M : Z) :
  (0 < Z.log2 M + 1 - 53)%Z →
  ∃ q s,
    roundTo53 M = (q, s) ∧ (0 < s)%Z ∧
    (q * 2 ^ s <= M + 2 ^ (s - 1))%Z ∧
    (2 ^ 53 * 2 ^ (s - 1) <= M)%Z.
Proof.
  intros Hs. unfold roundTo53.
  assert (HM : (0 < M)%Z).
  { destruct (Z.le_gt_cases M 0) as [Hle |]; [| lia].
    pose proof (Z.log2_nonpos M Hle). lia. }
  set (s := (Z.log2 M + 1 - 53)%Z) in *.
  rewrite (proj2 (Z.leb_gt _ _) Hs).
  assert (Hpow : (2 ^ s = 2 * 2 ^ (s - 1))%Z).
  { rewrite <- Z.pow_succ_r by lia. f_equal. lia. }
  assert (Hhalf : (0 < 2 ^ (s - 1))%Z) by (apply Z.pow_pos_nonneg; lia).
  pose proof (Z.div_mod M (2 ^ s) ltac:(lia)) as Hdm.
  pose proof (Z.mod_pos_bound M (2 ^ s) ltac:(lia)) as Hrem.
  eexists _, s. split; [reflexivity |]. split; [exact Hs |]. split.
  - set (q := (M / 2 ^ s)%Z) in *. set (rem := (M mod 2 ^ s)%Z) in *.
    destruct (rem <? 2 ^ (s - 1))%Z eqn:H1.
    + apply Z.ltb_lt in H1. nia.
    + apply Z.ltb_ge in H1. destruct (2 ^ (s - 1) <? rem)%Z eqn:H2.
      * apply Z.ltb_lt in H2. nia.
      * apply Z.ltb_ge in H2. destruct (Z.even q); nia.
  - destruct (Z.log2_spec M HM) as [Hlow _].
    replace (Z.log2 M) with (53 + (s - 1))%Z in Hlow by (subst s; lia).
    rewrite Z.pow_add_r in Hlow by lia. exact Hlow.
Qed.

Lemma randomIndexOf_lt (r : Q) (n : nat) :
  unitDraw r → 0 < n → randomIndexOf r n < n.
Proof.
  intros (H0 & H1 & H53 & Hden & _) Hn. unfold randomIndexOf.
  unfold Qle in H0. unfold Qlt in H1. simpl in H0, H1.
  set (m := Qnum r) in *. set (d := Z.pos (Qden r)) in *.
  set (N := Z.of_nat n).
  assert (HN : (1 <= N)%Z) by (subst N; lia).
  assert (Hd : (0 < d)%Z) by (subst d; lia).
  assert (Hgoal : ∀ x, (x < d * N)%Z → Z.to_nat (x / d) < n).
  { intros x Hx. pose proof (Z.div_lt_upper_bound x d N Hd Hx). lia. }
  destruct (Z.le_gt_cases (Z.log2 (m * N) + 1 - 53) 0) as [Hs | Hs].
  - rewrite (roundTo53_exact _ Hs). apply Hgoal. nia.
  - destruct (roundTo53_bounds _ Hs) as (q & s & -> & Hs0 & Hround & Hbig).
    apply Hgoal.
    assert (Hhalf : (0 < 2 ^ (s - 1))%Z) by (apply Z.pow_pos_nonneg; lia).
    assert (Hlt : (2 ^ (s - 1) < N)%Z) by nia.
    nia.
Qed.

Lemma randomIndexOf_empty (r : Q) : randomIndexOf r 0 = 0.
Proof.
  unfold randomIndexOf. rewrite Z.mul_0_r. by rewrite roundTo53_exact.
Qed.

(** Every drawn index is below [max 1 n]: below [n], or [0] on an empty
    array. *)
Lemma drawnIndices_bound (n : nat) (entropy : list Q) :
  Forall unitDraw entropy →
  Forall (λ i, i < Nat.max 1 n) (drawnIndices n entropy).
Proof.
  intros H. unfold drawnIndices. apply Forall_map.
  eapply Forall_impl; [exact H |].
  intros r Hr. simpl. destruct n as [| n].
  - rewrite randomIndexOf_empty. lia.
  - pose proof (randomIndexOf_lt r (S n) Hr). lia.
Qed.

Lemma selection_NoDup (draws seen : list nat) :
  NoDup seen → NoDup (selection seen draws).
Proof.
  revert seen. induction draws as [| i draws IH]; intros seen Hnd; simpl.
  - exact Hnd.
  - case_decide; apply IH; [exact Hnd |].
    apply NoDup_app. split_and!; [exact Hnd | | apply NoDup_singleton].
    intros x Hx Hxi. apply list_elem_of_singleton in Hxi. subst. contradiction.
Qed.

Lemma selection_Forall (P : nat → Prop) (draws seen : list nat) :
  Forall P seen → Forall P draws → Forall P (selection seen draws).
Proof.
  revert seen. induction draws as [| i draws IH]; intros seen Hs Hd; simpl.
  - exact Hs.
  - inversion Hd; subst. case_decide; apply IH; try assumption.
    apply Forall_app. split; [assumption | by constructor].
Qed.

Lemma selection_length (draws seen : list nat) :
  length seen ≤ length (selection seen draws).
Proof.
  revert seen. induction draws as [| i draws IH]; intros seen; simpl.
  - lia.
  - case_decide; [apply IH |].
    etransitivity; [| apply IH]. rewrite length_app. simpl. lia.
Qed.

(** The loop computes [selection]: it stops on the draw that completes the
    sample, and the sample is the picked entries in selection order. *)
Lemma sampleLoop_selection (entropy : list Q) :
  ∀ (seen : list nat) (res : list jsval) (rest : list Q),
    length seen ≤ sampleSize →
    sampleLoop entropy results (list_to_set seen) (map (pick results) seen)
      = Some (res, rest) →
    ∃ consumed,
      entropy = consumed ++ rest ∧
      res = map (pick results)
              (selection seen (drawnIndices (length results) consumed)) ∧
      length res = sampleSize.
Proof.
  induction entropy as [| r entropy IH]; intros seen res rest Hlen Hrun;
    simpl in Hrun; rewrite length_map in Hrun.
  - case_decide; [discriminate |]. inversion Hrun; subst.
    exists []. rewrite length_map. split_and!; [done | done | lia].
  - case_decide as Hlt.
    + case_decide as Hin.
      * destruct (IH seen res rest Hlen Hrun) as (consumed & -> & -> & Hl).
        exists (r :: consumed). simpl.
        rewrite decide_True by (by apply elem_of_list_to_set in Hin).
        done.
      * assert (Hni : randomIndexOf r (length results) ∉ seen).
        { intros Hc. apply Hin. by apply elem_of_list_to_set. }
        destruct (IH (seen ++ [randomIndexOf r (length results)]) res rest)
          as (consumed & -> & -> & Hl).
        { rewrite length_app. simpl. lia. }
        { rewrite <- Hrun. f_equal.
          - rewrite list_to_set_app_L. simpl.
            rewrite (right_id_L ∅ (∪)). apply (comm_L (∪)).
          - by rewrite map_app. }
        exists (r :: consumed). simpl. by rewrite decide_False.
    + inversion Hrun; subst. exists []. rewrite length_map.
      split_and!; [done | done | lia].
Qed.

(** The loop returns as soon as the draws hold ten distinct indices. *)
Lemma sampleLoop_returns (entropy : list Q) :
  ∀ (seen : list nat),
    sampleSize ≤
      length (selection seen (drawnIndices (length results) entropy)) →
    is_Some (sampleLoop entropy results (list_to_set seen)
               (map (pick results) seen)).
Proof.
  unfold drawnIndices.
  induction entropy as [| r entropy IH]; intros seen Hlen; simpl in *;
    rewrite length_map.
  - destruct (decide (length seen < sampleSize)); [lia | eauto].
  - destruct (decide (length seen < sampleSize)) as [Hlt |]; [| eauto].
    destruct (decide (randomIndexOf r (length results) ∈ seen)) as [Hin | Hni].
    + rewrite decide_True by (by apply elem_of_list_to_set). by apply IH.
    + rewrite decide_False by (by rewrite elem_of_list_to_set).
      specialize (IH _ Hlen).
      rewrite list_to_set_app_L, map_app in IH. simpl in IH.
      replace ({[randomIndexOf r (length results)]} ∪ list_to_set seen)
        with (list_to_set seen ∪ ({[randomIndexOf r (length results)]} ∪ ∅)
              : gset nat); [exact IH |].
      rewrite (right_id_L ∅ (∪)). apply (comm_L (∪)).
Qed.

End Sampler.

Lemma picked_present (results : list jsval) (idxs : list nat) :
  Forall (λ i, i < length results) idxs →
  Forall2 (λ i v, results !! i = Some v) idxs (map (pick results) idxs).
Proof.
  induction 1 as [| i idxs Hi _ IH]; simpl; constructor; [| exact IH].
  unfold pick. destruct (lookup_lt_is_Some_2 results i Hi) as [v ->]. done.
Qed.

Lemma bounded_NoDup_length (k : nat) (idxs : list nat) :
  NoDup idxs → Forall (λ i, i < k) idxs → length idxs ≤ k.
Proof.
  intros Hnd Hall.
  transitivity (length (seq 0 k)); [| by rewrite length_seq].
  apply submseteq_length, NoDup_submseteq; [done |].
  intros i Hi. rewrite Forall_forall in Hall. apply elem_of_seq.
  specialize (Hall i Hi). lia.
Qed.

(** The loop cannot finish on fewer than ten entries: it would have found ten
    distinct indices among fewer than ten. *)
Lemma sample_short_index (results : list jsval) (entropy : list Q) :
  length results < sampleSize →
  Forall unitDraw entropy →
  sample entropy results = None.
Proof.
  intros Hshort Hdraws. unfold sample.
  destruct (sampleLoop entropy results ∅ []) as [[res rest] |] eqn:Hrun; [| done].
  exfalso.
  destruct (sampleLoop_selection results entropy [] res rest) as (consumed & -> & -> & Hlen).
  { simpl. unfold sampleSize. lia. }
  { exact Hrun. }
  rewrite length_map in Hlen.
  apply Forall_app in Hdraws as [Hc _].
  pose proof (drawnIndices_bound (length results) consumed Hc) as Hb.
  pose proof (selection_Forall _ _ [] (Forall_nil_2 _) Hb) as Hall.
  pose proof (selection_NoDup (drawnIndices (length results) consumed) [] (NoDup_nil_2)) as Hnd.
  pose proof (bounded_NoDup_length _ _ Hnd Hall).
  unfold sampleSize in *. lia.
Qed.

(** C8: on an index of at least ten entries, with draws that hold ten
    distinct indices, the sampler returns exactly ten entries; they are the
    entries at ten pairwise distinct indices of the input, in the order in
    which these indices were first drawn, and the loop stops on the draw that
    completes the sample. *)
Theorem C8_sample_selects (results : list jsval) (entropy : list Q) :
  sampleSize ≤ length results →
  Forall unitDraw entropy →
  sampleSize ≤ length (selection [] (drawnIndices (length results) entropy)) →
  ∃ consumed rest idxs res,
    sample entropy results = Some (res, rest) ∧
    entropy = consumed ++ rest ∧
    idxs = selection [] (drawnIndices (length results) consumed) ∧
    length res = sampleSize ∧
    NoDup idxs ∧
    Forall2 (λ i v, results !! i = Some v) idxs res.
Proof.
  intros Hvalid Hdraws Hfair.
  destruct (sampleLoop_returns results entropy [] Hfair) as [[res rest] Hrun].
  simpl in Hrun.
  destruct (sampleLoop_selection results entropy [] res rest) as (consumed & -> & -> & Hlen).
  { simpl. unfold sampleSize. lia. }
  { exact Hrun. }
  exists consumed, rest, (selection [] (drawnIndices (length results) consumed)).
  eexists. split_and!; [exact Hrun | done | done | exact Hlen | |].
  - apply selection_NoDup, NoDup_nil_2.
  - apply picked_present, selection_Forall; [constructor |].
    apply Forall_app in Hdraws as [Hc _].
    eapply Forall_impl; [apply (drawnIndices_bound _ _ Hc) |].
    simpl. intros i Hi. unfold sampleSize in *. lia.
Qed.

Lemma C8_sample_selects_witness :
  ∃ consumed rest idxs res,
    sample (Fixture.draws 12 0) (Fixture.entries 12) = Some (res, rest) ∧
    Fixture.draws 12 0 = consumed ++ rest ∧
    idxs = selection [] (drawnIndices 12 consumed) ∧
    length res = sampleSize ∧
    NoDup idxs ∧
    Forall2 (λ i v, Fixture.entries 12 !! i = Some v) idxs res.
Proof.
  apply (C8_sample_selects (Fixture.entries 12) (Fixture.draws 12 0)).
  - vm_compute. lia.
  - unit_draws.
  - vm_compute. lia.
Defined.

(** C3: when the index has fewer than ten entries, the block that receives it
    never returns, whatever [Math.random] yields: no error is raised and the
    list slot is never written. *)
Theorem C3_short_index_hangs (m : machine) (cid : nat) (data : jsval)
    (results : list jsval) :
  calls m !! cid = Some ListIndexJson →
  Js.get data "results" = Normal (JArr results) →
  length results < sampleSize →
  Forall unitDraw (entropy m) →
  step (Settle cid (Body data)) m = Hangs.
Proof.
  intros Htask Hres Hshort Hdraws. simpl. unfold settle. rewrite Htask. simpl.
  unfold sampleIndex, resultsOf. rewrite Hres.
  by rewrite (sample_short_index results (entropy m) Hshort Hdraws).
Qed.

(** ** One step of the machine *)

Lemma nextItem_Finish (todo acc : list jsval) (e e' : list Q)
    (u : AppState → AppState) :
  nextItem todo acc e = Finish u e' →
  (todo = [] ∧ u = listLoaded acc) ∨ u = listFailed.
Proof.
  destruct todo as [| pokemon rest]; simpl.
  - intros [= <- _]. by left.
  - destruct (Js.get pokemon "url"); [discriminate |]. intros [= <- _]. by right.
Qed.

Lemma sample_nonempty (entropy : list Q) (results : list jsval)
    (randomPokemon : list jsval) (rest : list Q) :
  sample entropy results = Some (randomPokemon, rest) →
  length randomPokemon = sampleSize.
Proof.
  intros Hrun.
  destruct (sampleLoop_selection results entropy [] randomPokemon rest)
    as (_ & _ & _ & Hlen); [simpl; unfold sampleSize; lia | exact Hrun | exact Hlen].
Qed.

Lemma resume_Finish (t : call) (r : settlement) (e e' : list Q)
    (u : AppState → AppState) :
  resume t r e = Finish u e' → finishes t r u.
Proof.
  destruct t, r; simpl; try discriminate;
    try (intros [= <- _]; by constructor).
  - (* the index arrives *)
    unfold sampleIndex. destruct (resultsOf v) as [results | | |];
      try discriminate.
    + destruct (sample e results) as [[randomPokemon e1] |] eqn:Hs;
        [| discriminate].
      intros Hn. apply nextItem_Finish in Hn as [[-> _] | ->]; [| by constructor].
      apply sample_nonempty in Hs. discriminate.
    + destruct e; [discriminate |]. intros [= <- _]. by constructor.
  - (* a preview arrives *)
    destruct (previewItem pokemon v) as [item |] eqn:Hitem;
      [| intros [= <- _]; by constructor].
    intros Hn. apply nextItem_Finish in Hn as [[-> ->] | ->]; by constructor.
  - destruct (speciesUrl v); [discriminate | intros [= <- _]; by constructor].
  - destruct (detailRecord data v) eqn:Hrec; intros [= <- _]; by constructor.
Qed.

Lemma settle_Ok (cid : nat) (r : settlement) (m m' : machine) :
  settle cid r m = Ok m' →
  ∃ t, calls m !! cid = Some t ∧
    ((∃ t' request e',
        resume t r (entropy m) = Suspend t' request e' ∧
        ui m' = ui m ∧
        calls m' = <[cid := t']> (calls m) ∧
        fetched m' = fetched m ++ option_list request) ∨
     (∃ u,
        finishes t r u ∧
        ui m' = u (ui m) ∧
        calls m' = delete cid (calls m) ∧
        fetched m' = fetched m)).
Proof.
  unfold settle. destruct (calls m !! cid) as [t |]; [| discriminate].
  destruct (resume t r (entropy m)) as [t' request e' | u | |] eqn:Hres;
    try discriminate; intros [= <-]; exists t; (split; [done |]).
  - left. by exists t', request, e'.
  - right. exists u. by apply resume_Finish in Hres.
Qed.

Lemma finishes_uiChange (t : call) (r : settlement) (u : AppState → AppState)
    (s : AppState) :
  finishes t r u → uiChange s (u s).
Proof. destruct 1; constructor. Qed.

Lemma onRetry_cases (m : machine) :
  onRetry m = m ∨ ∃ url, onRetry m = fetchPokemonDetails url m.
Proof.
  unfold onRetry. destruct (Js.truthy _); [| by left].
  destruct (speciesUrl _) as [url |]; [right; by exists url | by left].
Qed.

Lemma step_uiChange (l : label) (m m' : machine) :
  step l m = Ok m' → uiChange (ui m) (ui m').
Proof.
  destruct l; simpl.
  - case_decide; [| discriminate]. intros [= <-]. constructor.
  - intros [= <-]. constructor.
  - intros [= <-]. constructor.
  - intros [= <-]. destruct (onRetry_cases m) as [-> | [url ->]]; constructor.
  - intros H. apply settle_Ok in H as (t & _ & [(? & ? & ? & _ & -> & _) | (u & Hf & -> & _)]).
    + constructor.
    + by eapply finishes_uiChange.
Qed.

(** The list cell is written by one step only: the one in which the last
    preview of a list call arrives and parses. *)
Lemma list_written_on_success (l : label) (m m' : machine) :
  step l m = Ok m' →
  pokemonList (ui m') = pokemonList (ui m) ∨
  ∃ cid pokemon acc details item,
    l = Settle cid (Body details) ∧
    calls m !! cid = Some (ListItemJson pokemon [] acc) ∧
    previewItem pokemon details = Normal item ∧
    pokemonList (ui m') = JArr (acc ++ [item]) ∧
    loading (ui m') = false.
Proof.
  destruct l; simpl.
  - case_decide; [| discriminate]. intros [= <-]. by left.
  - intros [= <-]. by left.
  - intros [= <-]. by left.
  - intros [= <-]. destruct (onRetry_cases m) as [-> | [url ->]]; by left.
  - intros H. apply settle_Ok in H as (t & Ht & [(? & ? & ? & _ & -> & _) | (u & Hf & -> & _)]).
    + by left.
    + destruct Hf; try (by left).
      right. by exists cid, pokemon, acc, details, item.
Qed.

Lemma exec_invariant (P : AppState → Prop) :
  (∀ s s', uiChange s s' → P s → P s') →
  ∀ trace m m', exec trace m = Ok m' → P (ui m) → P (ui m').
Proof.
  intros Hstep. induction trace as [| l trace IH]; intros m m'; simpl.
  - by intros [= <-].
  - destruct (step l m) as [m1 | |] eqn:Hl; try discriminate.
    intros Hrun HP. apply (IH m1 m' Hrun).
    eapply Hstep; [by eapply step_uiChange | exact HP].
Qed.

Lemma loading_keeps_list (trace : list label) :
  ∀ m m', loadingThroughout trace m → exec trace m = Ok m' →
    pokemonList (ui m') = pokemonList (ui m).
Proof.
  induction trace as [| l trace IH]; intros m m'; simpl.
  - by intros _ [= <-].
  - destruct (step l m) as [m1 | |] eqn:Hl; try done.
    intros [Hload Hrest] Hrun. rewrite (IH m1 m' Hrest Hrun).
    destruct (list_written_on_success l m m1 Hl)
      as [-> | (? & ? & ? & ? & ? & _ & _ & _ & _ & Hoff)]; [done | congruence].
Qed.

Lemma C3_short_index_hangs_witness :
  step (Settle 0 (Body (Fixture.index 3)))
    (Fixture.after [Mount; Settle 0 (Response 200)] (Fixture.draws 12 0)) = Hangs.
Proof.
  apply (C3_short_index_hangs _ 0 (Fixture.index 3) (Fixture.entries 3)).
  - reflexivity.
  - reflexivity.
  - vm_compute. lia.
  - unit_draws.
Defined.

(** ** The list slot *)

(** C10: in every reachable state the list cell holds an array, never
    [null]; it starts as the empty array, and a step either leaves it alone
    or replaces it by the array of previews a list call has just completed. *)
Theorem C10_list_is_always_an_array (m : machine) :
  reachable m →
  (∃ items, pokemonList (ui m) = JArr items) ∧
  pokemonList (ui m) ≠ JNull ∧
  (∀ entropy, pokemonList (ui (boot entropy)) = JArr []) ∧
  (∀ l m',
     step l m = Ok m' →
     pokemonList (ui m') = pokemonList (ui m) ∨
     ∃ cid pokemon acc details item,
       l = Settle cid (Body details) ∧
       calls m !! cid = Some (ListItemJson pokemon [] acc) ∧
       previewItem pokemon details = Normal item ∧
       pokemonList (ui m') = JArr (acc ++ [item])).
Proof.
  intros (entropy & trace & Hrun).
  assert (Harr : ∃ items, pokemonList (ui m) = JArr items).
  { apply (exec_invariant (λ s, ∃ items, pokemonList s = JArr items))
      with (trace := trace) (m := boot entropy); [| exact Hrun | by exists []].
    intros s s' Hch [items Hs]. destruct Hch; simpl; eauto. }
  split_and!.
  - exact Harr.
  - destruct Harr as [items ->]. discriminate.
  - done.
  - intros l m' Hl.
    destruct (list_written_on_success l m m' Hl)
      as [? | (cid & p & acc & d & item & ? & ? & ? & ? & _)]; [by left |].
    right. by exists cid, p, acc, d, item.
Qed.

Lemma C10_list_is_always_an_array_witness :
  ∃ items,
    pokemonList (ui (Fixture.after (Mount :: Fixture.listLoad 0 12 1)
                       (Fixture.draws 12 0))) = JArr items.
Proof.
  refine (proj1 (C10_list_is_always_an_array _ _)).
  exists (Fixture.draws 12 0), (Mount :: Fixture.listLoad 0 12 1).
  vm_compute. reflexivity.
Defined.

(** C9: a refresh turns [loading] on and clears [error] without writing the
    list; as long as [loading] stays on afterwards, whatever happens, the
    list cell still holds the list it held before the refresh; and a step
    that does write the list is the successful end of a list call and turns
    [loading] off. *)
Theorem C9_stale_while_revalidate (m : machine) (trace : list label)
    (m' : machine) :
  loadingThroughout trace (fetchPokemonList m) →
  exec (Refresh :: trace) m = Ok m' →
  loading (ui (fetchPokemonList m)) = true ∧
  error (ui (fetchPokemonList m)) = None ∧
  pokemonList (ui (fetchPokemonList m)) = pokemonList (ui m) ∧
  pokemonList (ui m') = pokemonList (ui m) ∧
  (∀ l m1 m2,
     step l m1 = Ok m2 →
     pokemonList (ui m2) ≠ pokemonList (ui m1) →
     loading (ui m2) = false ∧
     ∃ cid pokemon acc details item,
       l = Settle cid (Body details) ∧
       calls m1 !! cid = Some (ListItemJson pokemon [] acc) ∧
       previewItem pokemon details = Normal item ∧
       pokemonList (ui m2) = JArr (acc ++ [item])).
Proof.
  intros Hload Hrun. simpl in Hrun. split_and!; try done.
  - by rewrite (loading_keeps_list trace _ _ Hload Hrun).
  - intros l m1 m2 Hl Hne.
    destruct (list_written_on_success l m1 m2 Hl)
      as [? | (cid & p & acc & d & item & ? & ? & ? & ? & ?)]; [done |].
    split; [done |]. by exists cid, p, acc, d, item.
Qed.

Lemma C9_stale_while_revalidate_witness :
  let m := Fixture.after (Mount :: Fixture.listLoad 0 12 1)
             (Fixture.draws 12 0 ++ Fixture.draws 12 2) in
  let trace := deliver 1 (Reply 200 (Fixture.index 12)) ++
               deliver 1 (Reply 200 (Fixture.pokemon 3)) in
  pokemonList (ui m) = JArr (map Fixture.preview (seq 1 10)) ∧
  pokemonList (ui (Fixture.after (Mount :: Fixture.listLoad 0 12 1 ++ Refresh :: trace)
                     (Fixture.draws 12 0 ++ Fixture.draws 12 2)))
    = pokemonList (ui m).
Proof.
  intros m trace. split; [vm_compute; reflexivity |].
  refine (proj1 (proj2 (proj2 (proj2
    (C9_stale_while_revalidate m trace
       (Fixture.after (Mount :: Fixture.listLoad 0 12 1 ++ Refresh :: trace)
          (Fixture.draws 12 0 ++ Fixture.draws 12 2)) _ _))))).
  - vm_compute. tauto.
  - vm_compute. reflexivity.
Defined.

(** A preview that fails ends its list call at once: the error message is
    set, [loading] is turned off, nothing else is written. *)
Lemma preview_failure_step (m : machine) (cid : nat) (t : call) (r : settlement) :
  calls m !! cid = Some t →
  previewFails t r = true →
  ∃ m', step (Settle cid r) m = Ok m' ∧
    ui m' = listFailed (ui m) ∧
    calls m' = delete cid (calls m) ∧
    fetched m' = fetched m.
Proof.
  intros Ht Hf. simpl. unfold settle. rewrite Ht.
  destruct t, r; simpl in Hf; try discriminate; simpl; try (by eexists).
  destruct (previewItem pokemon v); [discriminate | by eexists].
Qed.

Lemma settle_gone (cid : nat) (trace : list label) (m m' : machine) :
  Forall (λ l, settlesOf cid l = true) trace →
  calls m !! cid = None →
  exec trace m = Ok m' →
  m' = m.
Proof.
  intros Hall Hnone. destruct Hall as [| l trace Hl _]; simpl.
  - by intros [= <-].
  - destruct l; try discriminate. simpl in Hl. apply bool_decide_eq_true in Hl as ->.
    simpl. unfold settle. by rewrite Hnone.
Qed.

(** While a call is suspended, its own settlements have written nothing. *)
Lemma own_settles_keep_ui (cid : nat) (trace : list label) :
  ∀ m m',
    Forall (λ l, settlesOf cid l = true) trace →
    exec trace m = Ok m' →
    is_Some (calls m' !! cid) →
    ui m' = ui m.
Proof.
  induction trace as [| l trace IH]; intros m m' Hall; simpl.
  - by intros [= <-].
  - inversion Hall as [| ? ? Hl Hrest]; subst.
    destruct (step l m) as [m1 | |] eqn:Hstep; try discriminate.
    intros Hrun Halive.
    destruct l; try discriminate. simpl in Hl.
    apply bool_decide_eq_true in Hl as ->. simpl in Hstep.
    apply settle_Ok in Hstep
      as (t & _ & [(? & ? & ? & _ & Hui & _) | (u & _ & _ & Hdel & _)]).
    + rewrite <- Hui. by apply IH.
    + assert (Hnone : calls m1 !! cid = None).
      { rewrite Hdel. apply lookup_delete_eq. }
      rewrite (settle_gone cid trace m1 m' Hrest Hnone Hrun) in Halive.
      rewrite Hnone in Halive. by destruct Halive.
Qed.

(** C6, as the code has it: when a preview of a list call fails in the sense
    the code knows (its promise rejects, its body is not JSON, or its record
    has no [sprites] to read the image from), at whatever position in the
    batch, the call ends with the fixed error message in [error], [loading]
    off, and the list cell exactly as it was before the call; the call is
    over and issues no further request. *)
Theorem C6_preview_failure_fails_batch (m : machine) (trace : list label)
    (m1 : machine) (t : call) (r : settlement) :
  Forall (λ l, settlesOf (next m) l = true) trace →
  exec (Refresh :: trace) m = Ok m1 →
  calls m1 !! next m = Some t →
  previewFails t r = true →
  ∃ m2,
    step (Settle (next m) r) m1 = Ok m2 ∧
    error (ui m2) = Some listErrorMessage ∧
    loading (ui m2) = false ∧
    pokemonList (ui m2) = pokemonList (ui m) ∧
    calls m2 !! next m = None ∧
    fetched m2 = fetched m1.
Proof.
  intros Hown Hrun Ht Hfail. simpl in Hrun.
  destruct (preview_failure_step m1 (next m) t r Ht Hfail)
    as (m2 & Hstep & Hui & Htasks & Hfetched).
  exists m2. split_and!; try done.
  - by rewrite Hui.
  - by rewrite Hui.
  - rewrite Hui. simpl.
    by rewrite (own_settles_keep_ui (next m) trace _ m1 Hown Hrun).
  - rewrite Htasks. apply lookup_delete_eq.
Qed.

Lemma C6_preview_failure_fails_batch_witness :
  let m := Fixture.after (Mount :: Fixture.listLoad 0 12 1)
             (Fixture.draws 12 0 ++ Fixture.draws 12 2) in
  let trace := deliver 1 (Reply 200 (Fixture.index 12)) ++
               deliverAll 1 (map (λ i, Reply 200 (Fixture.pokemon i)) (seq 3 4)) in
  ∃ m2,
    step (Settle 1 Rejected) (Fixture.after
       (Mount :: Fixture.listLoad 0 12 1 ++ Refresh :: trace)
       (Fixture.draws 12 0 ++ Fixture.draws 12 2)) = Ok m2 ∧
    error (ui m2) = Some listErrorMessage ∧
    loading (ui m2) = false ∧
    pokemonList (ui m2) = JArr (map Fixture.preview (seq 1 10)) ∧
    calls m2 !! 1 = None.
Proof.
  intros m trace.
  destruct (C6_preview_failure_fails_batch m trace
              (Fixture.after (Mount :: Fixture.listLoad 0 12 1 ++ Refresh :: trace)
                 (Fixture.draws 12 0 ++ Fixture.draws 12 2))
              (ListItemResponse (Fixture.entry 7)
                 (map Fixture.entry (seq 8 5))
                 (map Fixture.preview (seq 3 4)))
              Rejected)
    as (m2 & Hstep & Herr & Hload & Hlist & Hgone & _).
  - vm_compute. repeat constructor.
  - vm_compute. reflexivity.
  - vm_compute. reflexivity.
  - reflexivity.
  - exists m2. split_and!; assumption.
Defined.

(** C6 as stated fails: the list of previews 1 to 10 is shown and a refresh
    samples the entries 3 to 12; the fetch of the third preview answers 500
    with a body that parses, the others answer 200.  The load ends with no
    error and the list replaced, the preview of the failed fetch in it. *)
Lemma C6_counterexample :
  ∃ m,
    exec (Mount :: Fixture.listLoad 0 12 1 ++
          Refresh :: deliver 1 (Reply 200 (Fixture.index 12)) ++
          deliverAll 1 (map (λ i, Reply 200 (Fixture.pokemon i)) [3; 4] ++
                        [Reply 500 (Fixture.pokemon 5)] ++
                        map (λ i, Reply 200 (Fixture.pokemon i)) (seq 6 7)))
      (boot (Fixture.draws 12 0 ++ Fixture.draws 12 2)) = Ok m ∧
    error (ui m) = None ∧
    loading (ui m) = false ∧
    pokemonList (ui m) = JArr (map Fixture.preview (seq 3 10)) ∧
    pokemonList (ui m) ≠ JArr (map Fixture.preview (seq 1 10)).
Proof.
  eexists. split; [vm_compute; reflexivity |].
  split_and!; try (vm_compute; reflexivity). vm_compute. discriminate.
Qed.

(** ** The detail slot *)

Lemma lookup_set_eq (k : string) (v : jsval) (o : list (string * jsval)) :
  Js.lookup k (Js.set k v o) = Some v.
Proof.
  induction o as [| [k' v'] o IH]; simpl.
  - by rewrite String.eqb_refl.
  - destruct (String.eqb k k') eqn:Hk; simpl; rewrite Hk; [done | exact IH].
Qed.

Lemma lookup_set_ne (k k' : string) (v : jsval) (o : list (string * jsval)) :
  k' ≠ k → Js.lookup k' (Js.set k v o) = Js.lookup k' o.
Proof.
  intros Hne. induction o as [| [k1 v1] o IH]; simpl.
  - by rewrite (proj2 (String.eqb_neq k' k) Hne).
  - destruct (String.eqb k k1) eqn:Hk; simpl.
    + apply String.eqb_eq in Hk as <-.
      by rewrite (proj2 (String.eqb_neq k' k) Hne).
    + destruct (String.eqb k' k1); [done | exact IH].
Qed.

(** [first?.flavor_text] on the first element of an array. *)
Lemma first_flavor_text (entries : list jsval) :
  (first ← Js.get0 (JArr entries); Js.get_opt first "flavor_text")
    = Normal (firstText entries).
Proof. destruct entries as [| [] ?]; reflexivity. Qed.

(** C4, as the code has it: over a description list, the description is the
    text of the first entry when that text is truthy (a non-empty string is
    taken verbatim) and the sentinel otherwise (no entry, no text, or an
    empty text), never a failure; and in the merged record the computed
    description replaces a [description] field of the primary record, whose
    other fields are kept. *)
Theorem C4_description_of_list (data speciesData : jsval) (entries : list jsval) :
  Js.get speciesData "flavor_text_entries" = Normal (JArr entries) →
  ∃ d merged,
    detailRecord data speciesData = Normal (JObj merged) ∧
    merged = Js.set "description" d (Js.spread data) ∧
    Js.lookup "description" merged = Some d ∧
    (∀ k, k ≠ "description" → Js.lookup k merged = Js.lookup k (Js.spread data)) ∧
    d = Js.or_else (firstText entries) (JStr noDescription) ∧
    (entries = [] → d = JStr noDescription) ∧
    (∀ s, firstText entries = JStr s → s ≠ "" → d = JStr s) ∧
    (firstText entries = JStr "" ∨ firstText entries = JUndefined →
     d = JStr noDescription).
Proof.
  intros Hentries.
  exists (Js.or_else (firstText entries) (JStr noDescription)).
  eexists. split_and!; [| reflexivity | | | | | |].
  - unfold detailRecord, description. rewrite Hentries. simpl.
    pose proof (first_flavor_text entries) as Hfirst. simpl in Hfirst.
    rewrite Hfirst. reflexivity.
  - apply lookup_set_eq.
  - intros k Hk. by apply lookup_set_ne.
  - reflexivity.
  - by intros ->.
  - intros s -> Hs. unfold Js.or_else. simpl.
    by rewrite (proj2 (String.eqb_neq s "") Hs).
  - by intros [-> | ->].
Qed.

Lemma C4_description_of_list_witness :
  ∃ d merged,
    detailRecord (Fixture.pokemon 25) (Fixture.species ["It stores electricity."; "second"])
      = Normal (JObj merged) ∧
    Js.lookup "description" merged = Some d ∧
    d = JStr "It stores electricity.".
Proof.
  destruct (C4_description_of_list (Fixture.pokemon 25)
              (Fixture.species ["It stores electricity."; "second"])
              [JObj [("flavor_text", JStr "It stores electricity.")];
               JObj [("flavor_text", JStr "second")]])
    as (d & merged & Hrec & _ & Hlook & _ & _ & _ & Htext & _).
  - reflexivity.
  - exists d, merged. split_and!; [exact Hrec | exact Hlook |].
    apply Htext; [reflexivity | discriminate].
Defined.

(** C4 as stated fails twice: a first entry whose text is the empty string
    yields the sentinel, not that text; and a secondary record without the
    list field makes the whole resolution fail with the detail error. *)
Lemma C4_counterexample :
  firstText [JObj [("flavor_text", JStr "")]] = JStr "" ∧
  description (Fixture.species [""]) = Normal (JStr noDescription) ∧
  JStr noDescription ≠ JStr "" ∧
  Js.get (JObj [("name", JStr "pikachu")]) "flavor_text_entries" = Normal JUndefined ∧
  ∃ m,
    exec [Select (Fixture.pokemonUrl 25);
          Settle 0 (Response 200); Settle 0 (Body (Fixture.pokemon 25));
          Settle 0 (Response 200); Settle 0 (Body (JObj [("name", JStr "pikachu")]))]
      (boot []) = Ok m ∧
    detailsError (ui m) = Some detailsErrorMessage ∧
    selectedPokemon (ui m) = JNull.
Proof.
  split_and!; try reflexivity; try discriminate.
  eexists. split_and!; [vm_compute; reflexivity | reflexivity | reflexivity].
Qed.

(** ** Status codes *)

Lemma resume_status (t : call) (status status' : nat) (e : list Q) :
  resume t (Response status) e = resume t (Response status') e.
Proof. by destruct t. Qed.

Lemma resume_response (t : call) (status : nat) (e : list Q) :
  resume t (Response status) e = Refuse ∨
  ∃ t', resume t (Response status) e = Suspend t' None e.
Proof. destruct t; simpl; eauto. Qed.

(** A call fails only on a rejected promise or on a read that throws. *)
Lemma failure_has_cause (c : call) (r : settlement) (e e' : list Q) :
  resume c r e = Finish listFailed e' ∨
  resume c r e = Finish detailsFailed e' →
  r = Rejected ∨ ∃ v, r = Body v ∧ readThrows c v e.
Proof.
  intros Hfail.
  destruct r as [| status | v]; [by left | | right; exists v; split; [done |]].
  - destruct (resume_response c status e) as [H | [c' H]]; rewrite H in Hfail;
      by destruct Hfail.
  - destruct c; simpl in *; try (by destruct Hfail).
    + (* the index *)
      unfold sampleIndex in Hfail.
      destruct (resultsOf v) as [results | | |] eqn:Hshape;
        try (by destruct Hfail); [| by left].
      destruct (sample e results) as [[randomPokemon e1] |] eqn:Hs;
        [| by destruct Hfail].
      pose proof (sample_nonempty _ _ _ _ Hs) as Hten.
      destruct randomPokemon as [| pokemon rest]; [discriminate |].
      right. exists results, pokemon, rest, e1. split_and!; try done.
      simpl in Hfail. destruct (Js.get pokemon "url"); [| done].
      by destruct Hfail.
    + (* a preview *)
      destruct (previewItem pokemon v) as [item |]; [| by left].
      destruct rest as [| following rest']; simpl in Hfail.
      * destruct Hfail as [[= H _] | [= H _]]; exits_differ H.
      * right. exists following, rest'. split; [done |].
        destruct (Js.get following "url"); [| done]. by destruct Hfail.
    + destruct (speciesUrl v); [| done]. by destruct Hfail.
    + unfold detailRecord in Hfail.
      destruct (description v) as [d |]; [| done]. simpl in Hfail.
      destruct Hfail as [[= H _] | [= H _]]; exits_differ H.
Qed.

(** C5, as the code has it: the status code of a response is never read.  A
    response with one status is handled as a response with any other: it
    writes nothing, issues nothing and leaves the call waiting for the body,
    and the whole exchange has the outcome its body alone decides.  A call
    ends in failure only when a promise rejects (the network fails, or the
    body is not JSON) or when a property read on a parsed body throws. *)
Theorem C5_status_is_not_inspected (m : machine) (cid : nat)
    (status status' : nat) :
  step (Settle cid (Response status)) m = step (Settle cid (Response status')) m ∧
  (∀ v, exec (deliver cid (Reply status v)) m
        = exec (deliver cid (Reply status' v)) m) ∧
  (∀ m', step (Settle cid (Response status)) m = Ok m' →
         ui m' = ui m ∧ fetched m' = fetched m ∧ is_Some (calls m' !! cid)) ∧
  (∀ c r e e',
     resume c r e = Finish listFailed e' ∨
     resume c r e = Finish detailsFailed e' →
     r = Rejected ∨ ∃ v, r = Body v ∧ readThrows c v e).
Proof.
  assert (Hsame : step (Settle cid (Response status)) m
                  = step (Settle cid (Response status')) m).
  { simpl. unfold settle. destruct (calls m !! cid) as [t |]; [| done].
    by rewrite (resume_status t status status'). }
  split_and!; [| | | apply failure_has_cause].
  - exact Hsame.
  - intros v. unfold deliver, exec. by rewrite Hsame.
  - intros m'. simpl. unfold settle.
    destruct (calls m !! cid) as [t |]; [| discriminate].
    destruct (resume_response t status (entropy m)) as [-> | [t' ->]];
      [discriminate |].
    intros [= <-]. simpl. split_and!; [done | by rewrite app_nil_r |].
    rewrite lookup_insert_eq. by eexists.
Qed.

Lemma C5_status_is_not_inspected_witness :
  step (Settle 0 (Response 500)) (Fixture.after [Select (Fixture.pokemonUrl 25)] [])
    = step (Settle 0 (Response 200)) (Fixture.after [Select (Fixture.pokemonUrl 25)] []) ∧
  ui (Fixture.after [Select (Fixture.pokemonUrl 25); Settle 0 (Response 500)] [])
    = ui (Fixture.after [Select (Fixture.pokemonUrl 25)] []) ∧
  (Body (JObj [("name", JStr "pikachu")]) = Rejected ∨
   ∃ v, Body (JObj [("name", JStr "pikachu")]) = Body v ∧
        readThrows (SpeciesJson (Fixture.pokemon 25)) v []).
Proof.
  split_and!.
  - exact (proj1 (C5_status_is_not_inspected
      (Fixture.after [Select (Fixture.pokemonUrl 25)] []) 0 500 200)).
  - refine (proj1 (proj1 (proj2 (proj2 (C5_status_is_not_inspected
      (Fixture.after [Select (Fixture.pokemonUrl 25)] []) 0 500 200)))
      (Fixture.after [Select (Fixture.pokemonUrl 25); Settle 0 (Response 500)] []) _)).
    vm_compute. reflexivity.
  - refine (proj2 (proj2 (proj2 (C5_status_is_not_inspected
      (Fixture.after [Select (Fixture.pokemonUrl 25)] []) 0 500 200)))
      (SpeciesJson (Fixture.pokemon 25))
      (Body (JObj [("name", JStr "pikachu")])) [] [] _).
    right. reflexivity.
Defined.

(** C5 as stated fails: an expanded resolution whose two fetches answer 500
    and 404 completes without error, and so does a list load whose index
    answers 503 and whose previews answer 404. *)
Lemma C5_counterexample :
  (∃ m,
     exec (Select (Fixture.pokemonUrl 25) ::
           deliver 0 (Reply 500 (Fixture.pokemon 25)) ++
           deliver 0 (Reply 404 (Fixture.species [])))
       (boot []) = Ok m ∧
     detailsError (ui m) = None ∧
     detailsLoading (ui m) = false ∧
     selectedPokemon (ui m) = Fixture.detail 25 noDescription) ∧
  (∃ m,
     exec (Mount ::
           deliver 0 (Reply 503 (Fixture.index 12)) ++
           deliverAll 0 (map (λ i, Reply 404 (Fixture.pokemon i)) (seq 1 10)))
       (boot (Fixture.draws 12 0)) = Ok m ∧
     error (ui m) = None ∧
     loading (ui m) = false ∧
     pokemonList (ui m) = JArr (map Fixture.preview (seq 1 10))).
Proof.
  split; eexists; (split; [vm_compute; reflexivity |]);
    split_and!; vm_compute; reflexivity.
Qed.

(** ** Overlapping calls *)

(** A call whose last promise resolves writes its result into its slot,
    whatever calls were started after it and whatever the slot holds. *)
Lemma completion_writes (m : machine) (cid : nat) :
  (∀ data speciesData record,
     calls m !! cid = Some (SpeciesJson data) →
     detailRecord data speciesData = Normal record →
     ∃ m', step (Settle cid (Body speciesData)) m = Ok m' ∧
           selectedPokemon (ui m') = record ∧
           detailsLoading (ui m') = false) ∧
  (∀ pokemon acc details item,
     calls m !! cid = Some (ListItemJson pokemon [] acc) →
     previewItem pokemon details = Normal item →
     ∃ m', step (Settle cid (Body details)) m = Ok m' ∧
           pokemonList (ui m') = JArr (acc ++ [item]) ∧
           loading (ui m') = false).
Proof.
  split.
  - intros data speciesData record Ht Hrec. simpl. unfold settle.
    rewrite Ht. simpl. rewrite Hrec. by eexists.
  - intros pokemon acc details item Ht Hitem. simpl. unfold settle.
    rewrite Ht. simpl. rewrite Hitem. simpl. by eexists.
Qed.

Lemma completes_nonempty (c : call) (script : list settlement)
    (u : AppState → AppState) :
  completes c script u → script ≠ [].
Proof. by destruct script. Qed.

(** A call that runs alone to its end. *)
Lemma solo_run (cid : nat) (script : list settlement) (u : AppState → AppState) :
  ∀ (c : call) (m : machine),
    calls m !! cid = Some c →
    completes c script u →
    ∃ m', exec (map (Settle cid) script) m = Ok m' ∧
          ui m' = u (ui m) ∧
          calls m' = delete cid (calls m).
Proof.
  induction script as [| r script IH]; intros c m Hc Hcomp; [done |].
  destruct script as [| r' script].
  - simpl in *. unfold settle. rewrite Hc, (Hcomp (entropy m)). by eexists.
  - destruct Hcomp as (c' & request & Hres & Hcomp).
    change (map (Settle cid) (r :: r' :: script))
      with (Settle cid r :: map (Settle cid) (r' :: script)).
    cbn [exec step]. unfold settle at 1. rewrite Hc, (Hres (entropy m)).
    next_machine ltac:(fun m1 =>
      destruct (IH c' m1) as (m' & Hrun & Hui & Hcalls)); [| exact Hcomp |].
    { simpl. apply lookup_insert_eq. }
    exists m'. split_and!; [exact Hrun | exact Hui |].
    rewrite Hcalls. simpl. apply delete_insert_eq.
Qed.

Lemma interleaved_only_b (a b : nat) (xs ys : list settlement) (trace : list label) :
  interleaved a b xs ys trace → xs = [] → trace = map (Settle b) ys.
Proof.
  induction 1 as [xs' | ys' | x xs' ys' trace' _ _ | y xs' ys' trace' _ IH];
    intros Hnil.
  - by subst.
  - done.
  - discriminate.
  - simpl. f_equal. by apply IH.
Qed.

Lemma interleaved_only_a (a b : nat) (xs ys : list settlement) (trace : list label) :
  interleaved a b xs ys trace → ys = [] → trace = map (Settle a) xs.
Proof.
  induction 1 as [xs' | ys' | x xs' ys' trace' _ IH | y xs' ys' trace' _ _];
    intros Hnil.
  - done.
  - by subst.
  - simpl. f_equal. by apply IH.
  - discriminate.
Qed.

Lemma interleaved_nonempty (a b : nat) (xs ys : list settlement) (trace : list label) :
  interleaved a b xs ys trace → xs ≠ [] ∨ ys ≠ [] → trace ≠ [].
Proof.
  destruct 1 as [xs | ys | |]; try done.
  - intros [? | ?]; [by destruct xs | done].
  - intros [? | ?]; [done | by destruct ys].
Qed.

Lemma settlesLast_cons (cid : nat) (l : label) (trace : list label) :
  trace ≠ [] → settlesLast cid (l :: trace) = settlesLast cid trace.
Proof. by destruct trace. Qed.

Lemma settlesLast_map (cid cid' : nat) (script : list settlement) :
  script ≠ [] →
  settlesLast cid (map (Settle cid') script) = bool_decide (cid' = cid).
Proof.
  intros Hne. induction script as [| r script IH]; [done |].
  destruct script as [| r' script]; [done |].
  change (map (Settle cid') (r :: r' :: script))
    with (Settle cid' r :: map (Settle cid') (r' :: script)).
  rewrite settlesLast_cons by done. by apply IH.
Qed.

(** Two calls that run to their ends, interleaved in any way: both updates
    are applied, the one of the call that settles last on top. *)
Lemma duo_run (a b : nat) (ua ub : AppState → AppState)
    (xs ys : list settlement) (trace : list label) :
  a ≠ b →
  interleaved a b xs ys trace →
  ∀ (ca cb : call) (m : machine),
    calls m !! a = Some ca →
    calls m !! b = Some cb →
    completes ca xs ua →
    completes cb ys ub →
    ∃ m', exec trace m = Ok m' ∧
          ui m' = (if settlesLast a trace then ua (ub (ui m))
                   else ub (ua (ui m))).
Proof.
  intros Hab. induction 1 as [xs | ys | x xs ys trace Hil IH | y xs ys trace Hil IH];
    intros ca cb m Ha Hb Hca Hcb; try done.
  - (* a step of [a] *)
    destruct xs as [| x' xs].
    + pose proof (interleaved_only_b a b [] ys trace Hil eq_refl) as ->.
      simpl in Hca. cbn [exec step]. unfold settle at 1.
      rewrite Ha, (Hca (entropy m)).
      next_machine ltac:(fun m1 =>
        destruct (solo_run b ys ub cb m1) as (m' & Hrun & Hui & _)); [| exact Hcb |].
      { simpl. by rewrite lookup_delete_ne. }
      exists m'. split; [exact Hrun |].
      assert (Hys : ys ≠ []) by (by eapply completes_nonempty).
      rewrite settlesLast_cons by (by destruct ys).
      rewrite settlesLast_map, bool_decide_false by done. exact Hui.
    + destruct Hca as (ca' & request & Hres & Hca).
      cbn [exec step]. unfold settle at 1. rewrite Ha, (Hres (entropy m)).
      next_machine ltac:(fun m1 =>
        destruct (IH ca' cb m1) as (m' & Hrun & Hui)); [| | exact Hca | exact Hcb |].
      { simpl. apply lookup_insert_eq. }
      { simpl. by rewrite lookup_insert_ne. }
      exists m'. split; [exact Hrun |].
      rewrite settlesLast_cons by (eapply interleaved_nonempty; [exact Hil | by left]).
      exact Hui.
  - (* a step of [b] *)
    destruct ys as [| y' ys].
    + pose proof (interleaved_only_a a b xs [] trace Hil eq_refl) as ->.
      simpl in Hcb. cbn [exec step]. unfold settle at 1.
      rewrite Hb, (Hcb (entropy m)).
      next_machine ltac:(fun m1 =>
        destruct (solo_run a xs ua ca m1) as (m' & Hrun & Hui & _)); [| exact Hca |].
      { simpl. by rewrite lookup_delete_ne. }
      exists m'. split; [exact Hrun |].
      assert (Hxs : xs ≠ []) by (by eapply completes_nonempty).
      rewrite settlesLast_cons by (by destruct xs).
      rewrite settlesLast_map, bool_decide_true by done. exact Hui.
    + destruct Hcb as (cb' & request & Hres & Hcb).
      cbn [exec step]. unfold settle at 1. rewrite Hb, (Hres (entropy m)).
      next_machine ltac:(fun m1 =>
        destruct (IH ca cb' m1) as (m' & Hrun & Hui)); [| | exact Hca | exact Hcb |].
      { simpl. by rewrite lookup_insert_ne. }
      { simpl. apply lookup_insert_eq. }
      exists m'. split; [exact Hrun |].
      rewrite settlesLast_cons by (eapply interleaved_nonempty; [exact Hil | by right]).
      exact Hui.
Qed.

(** The four settlements of an expanded resolution that succeeds. *)
Lemma expanded_completes (data speciesData record url : jsval) (s1 s2 : nat) :
  speciesUrl data = Normal url →
  detailRecord data speciesData = Normal record →
  completes DetailResponse
    [Response s1; Body data; Response s2; Body speciesData]
    (detailsLoaded record).
Proof.
  intros Hurl Hrec. cbn [completes].
  exists DetailJson, None. split; [done |].
  exists (SpeciesResponse data), (Some url).
  split; [intros e; cbn [resume]; by rewrite Hurl |].
  exists (SpeciesJson data), None. split; [done |].
  intros e. cbn [resume]. by rewrite Hrec.
Qed.

(** A step that changes the detail cell ends an expanded resolution with
    success, and one that changes the list cell ends a list load with
    success. *)
Lemma cell_written_by_ending (l : label) (m m' : machine) :
  step l m = Ok m' →
  (endsDetail m l = false → selectedPokemon (ui m') = selectedPokemon (ui m)) ∧
  (endsList m l = false → pokemonList (ui m') = pokemonList (ui m)).
Proof.
  destruct l; simpl.
  - case_decide; [| discriminate]. by intros [= <-].
  - by intros [= <-].
  - by intros [= <-].
  - intros [= <-]. by destruct (onRetry_cases m) as [-> | [url ->]].
  - intros H. apply settle_Ok in H
      as (c & Hc & [(? & ? & ? & _ & -> & _) | (u & Hf & -> & _)]);
      [done |].
    rewrite Hc. destruct Hf as [| pokemon acc details item Hitem | |
                                data speciesData record Hrec]; simpl;
      try done.
    + by rewrite Hitem.
    + by rewrite Hrec.
Qed.

Lemma quiet_run_keeps_cells (later : list label) :
  ∀ m m',
    exec later m = Ok m' →
    (along (λ m l, negb (endsDetail m l)) later m →
     selectedPokemon (ui m') = selectedPokemon (ui m)) ∧
    (along (λ m l, negb (endsList m l)) later m →
     pokemonList (ui m') = pokemonList (ui m)).
Proof.
  induction later as [| l later IH]; intros m m'; simpl.
  - by intros [= <-].
  - destruct (step l m) as [m1 | |] eqn:Hl; try discriminate.
    intros Hrun. destruct (IH m1 m' Hrun) as [IHd IHl].
    destruct (cell_written_by_ending l m m1 Hl) as [Hd Hlist].
    split; intros [Hquiet Hrest]; apply negb_true_iff in Hquiet.
    + rewrite <- (Hd Hquiet). by apply IHd.
    + rewrite <- (Hlist Hquiet). by apply IHl.
Qed.

(** C1, as the code has it: the last call to settle wins, in both slots.
    First, two suspended calls [a] and [b] that both run to their ends, their
    settlements interleaved in any order: the run goes through and both
    results are written, that of the call that settles last over the other.
    Second, in any state at all, whatever calls were started or have ended
    before: when the last body of an expanded resolution arrives and merges,
    its record is written to the detail cell, with no check against any
    newer selection, and stays there until another expanded resolution ends
    with success.  Third, the same for a list load: when its last preview
    arrives and parses, its ten previews are written to the list cell, with
    no check against any newer load, and stay there until another list load
    ends with success.  So after overlapping selections, or overlapping list
    loads from their first fetch on, the slot holds the result of the call
    that ended last. *)
Theorem C1_last_settled_wins :
  (∀ (m : machine) (a b : nat) (ca cb : call) (xs ys : list settlement)
     (ua ub : AppState → AppState) (trace : list label),
     a ≠ b →
     calls m !! a = Some ca →
     calls m !! b = Some cb →
     completes ca xs ua →
     completes cb ys ub →
     interleaved a b xs ys trace →
     ∃ m',
       exec trace m = Ok m' ∧
       ui m' = (if settlesLast a trace then ua (ub (ui m)) else ub (ua (ui m))) ∧
       (∀ recordA recordB,
          ua = detailsLoaded recordA → ub = detailsLoaded recordB →
          selectedPokemon (ui m')
            = if settlesLast a trace then recordA else recordB) ∧
       (∀ listA listB,
          ua = listLoaded listA → ub = listLoaded listB →
          pokemonList (ui m')
            = JArr (if settlesLast a trace then listA else listB))) ∧
  (∀ (m : machine) (cid : nat) (data speciesData record : jsval),
     calls m !! cid = Some (SpeciesJson data) →
     detailRecord data speciesData = Normal record →
     ∃ m1,
       step (Settle cid (Body speciesData)) m = Ok m1 ∧
       selectedPokemon (ui m1) = record ∧
       ∀ later m',
         exec later m1 = Ok m' →
         along (λ m l, negb (endsDetail m l)) later m1 →
         selectedPokemon (ui m') = record) ∧
  (∀ (m : machine) (cid : nat) (pokemon details item : jsval)
     (pokemonWithImages : list jsval),
     calls m !! cid = Some (ListItemJson pokemon [] pokemonWithImages) →
     previewItem pokemon details = Normal item →
     ∃ m1,
       step (Settle cid (Body details)) m = Ok m1 ∧
       pokemonList (ui m1) = JArr (pokemonWithImages ++ [item]) ∧
       ∀ later m',
         exec later m1 = Ok m' →
         along (λ m l, negb (endsList m l)) later m1 →
         pokemonList (ui m') = JArr (pokemonWithImages ++ [item])).
Proof.
  split_and!.
  - intros m a b ca cb xs ys ua ub trace Hab Ha Hb Hca Hcb Hil.
    destruct (duo_run a b ua ub xs ys trace Hab Hil ca cb m Ha Hb Hca Hcb)
      as (m' & Hrun & Hui).
    exists m'. split_and!; [exact Hrun | exact Hui | |].
    + intros recordA recordB -> ->. rewrite Hui.
      by destruct (settlesLast a trace).
    + intros listA listB -> ->. rewrite Hui. by destruct (settlesLast a trace).
  - intros m cid data speciesData record Hc Hrec.
    destruct (proj1 (completion_writes m cid) data speciesData record Hc Hrec)
      as (m1 & Hstep & Hsel & _).
    exists m1. split_and!; [exact Hstep | exact Hsel |].
    intros later m' Hrun Hquiet.
    rewrite (proj1 (quiet_run_keeps_cells later m1 m' Hrun) Hquiet). exact Hsel.
  - intros m cid pokemon details item acc Hc Hitem.
    destruct (proj2 (completion_writes m cid) pokemon acc details item Hc Hitem)
      as (m1 & Hstep & Hlist & _).
    exists m1. split_and!; [exact Hstep | exact Hlist |].
    intros later m' Hrun Hquiet.
    rewrite (proj2 (quiet_run_keeps_cells later m1 m' Hrun) Hquiet). exact Hlist.
Qed.

Lemma C1_last_settled_wins_witness :
  (∃ m',
     exec (Fixture.detailLoad 1 2 ["text of 2"] ++ Fixture.detailLoad 0 1 ["text of 1"])
       (Fixture.after [Select (Fixture.pokemonUrl 1); Select (Fixture.pokemonUrl 2)] [])
       = Ok m' ∧
     selectedPokemon (ui m') = Fixture.detail 1 "text of 1") ∧
  (∃ m',
     exec ([Mount; Refresh] ++ Fixture.listLoad 1 12 1 ++ Fixture.listLoad 0 12 3)
       (boot (Fixture.draws 12 0 ++ Fixture.draws 12 2)) = Ok m' ∧
     pokemonList (ui m') = JArr (map Fixture.preview (seq 3 10))).
Proof.
  split.
  - destruct (proj1 C1_last_settled_wins
                (Fixture.after [Select (Fixture.pokemonUrl 1);
                                Select (Fixture.pokemonUrl 2)] [])
                0 1 DetailResponse DetailResponse
                [Response 200; Body (Fixture.pokemon 1);
                 Response 200; Body (Fixture.species ["text of 1"])]
                [Response 200; Body (Fixture.pokemon 2);
                 Response 200; Body (Fixture.species ["text of 2"])]
                (detailsLoaded (Fixture.detail 1 "text of 1"))
                (detailsLoaded (Fixture.detail 2 "text of 2"))
                (Fixture.detailLoad 1 2 ["text of 2"] ++
                 Fixture.detailLoad 0 1 ["text of 1"]))
      as (m' & Hrun & _ & Hdetail & _).
    + discriminate.
    + vm_compute. reflexivity.
    + vm_compute. reflexivity.
    + by apply (expanded_completes _ _ _ (JStr (Fixture.speciesUrlOf 1))).
    + by apply (expanded_completes _ _ _ (JStr (Fixture.speciesUrlOf 2))).
    + do 4 apply interleaved_b. apply interleaved_left.
    + exists m'. split; [exact Hrun |].
      exact (Hdetail _ _ eq_refl eq_refl).
  - destruct (proj2 (proj2 C1_last_settled_wins)
                (Fixture.after
                   ([Mount; Refresh] ++ Fixture.listLoad 1 12 1 ++
                    removelast (Fixture.listLoad 0 12 3))
                   (Fixture.draws 12 0 ++ Fixture.draws 12 2))
                0 (Fixture.entry 12) (Fixture.pokemon 12) (Fixture.preview 12)
                (map Fixture.preview (seq 3 9)))
      as (m1 & Hstep & Hlist & _).
    + vm_compute. reflexivity.
    + vm_compute. reflexivity.
    + exists m1. split.
      * rewrite <- Hstep. vm_compute. reflexivity.
      * rewrite Hlist. vm_compute. reflexivity.
Defined.

(** C1 as stated fails: entry 1 is selected, then entry 2 before anything has
    settled; the fetches of 2 settle first and those of 1 after them; both
    calls are over and the detail cell holds the record of 1.  Likewise two
    overlapping list loads: the list of the first call, which settles last,
    replaces the list of the second. *)
Lemma C1_counterexample :
  (∃ m,
     exec ([Select (Fixture.pokemonUrl 1); Select (Fixture.pokemonUrl 2)] ++
           Fixture.detailLoad 1 2 ["text of 2"] ++
           Fixture.detailLoad 0 1 ["text of 1"])
       (boot []) = Ok m ∧
     calls m = ∅ ∧
     selectedPokemon (ui m) = Fixture.detail 1 "text of 1" ∧
     selectedPokemon (ui m) ≠ Fixture.detail 2 "text of 2") ∧
  (∃ m,
     exec ([Mount; Refresh] ++
           Fixture.listLoad 1 12 1 ++
           Fixture.listLoad 0 12 3)
       (boot (Fixture.draws 12 0 ++ Fixture.draws 12 2)) = Ok m ∧
     calls m = ∅ ∧
     pokemonList (ui m) = JArr (map Fixture.preview (seq 3 10)) ∧
     pokemonList (ui m) ≠ JArr (map Fixture.preview (seq 1 10))).
Proof.
  split; eexists; (split; [vm_compute; reflexivity |]);
    split_and!; try (vm_compute; reflexivity); vm_compute; discriminate.
Qed.

(** ** The order of the preview fetches *)

(** The blocks of the [for ... of] loop: while a preview is outstanding its
    call issues nothing; the body of a preview issues the fetch of the next
    entry, or writes the list when it was the last; a failing preview ends
    the call, the entries after it never being fetched. *)
Lemma preview_steps (m : machine) (cid : nat) (pokemon : jsval)
    (rest acc : list jsval) :
  (calls m !! cid = Some (ListItemResponse pokemon rest acc) →
   ∀ status, ∃ m',
     step (Settle cid (Response status)) m = Ok m' ∧
     fetched m' = fetched m ∧
     calls m' !! cid = Some (ListItemJson pokemon rest acc) ∧
     ui m' = ui m) ∧
  (calls m !! cid = Some (ListItemJson pokemon rest acc) →
   ∀ details item,
     previewItem pokemon details = Normal item →
     match rest with
     | following :: rest' =>
         ∀ url, Js.get following "url" = Normal url →
           ∃ m',
             step (Settle cid (Body details)) m = Ok m' ∧
             fetched m' = fetched m ++ [url] ∧
             calls m' !! cid
               = Some (ListItemResponse following rest' (acc ++ [item])) ∧
             ui m' = ui m
     | [] =>
         ∃ m',
           step (Settle cid (Body details)) m = Ok m' ∧
           fetched m' = fetched m ∧
           calls m' !! cid = None ∧
           ui m' = listLoaded (acc ++ [item]) (ui m)
     end) ∧
  (∀ t r,
     calls m !! cid = Some t →
     previewFails t r = true →
     ∃ m',
       step (Settle cid r) m = Ok m' ∧
       fetched m' = fetched m ∧
       calls m' !! cid = None ∧
       ui m' = listFailed (ui m)).
Proof.
  split_and!.
  - intros Ht status. simpl. unfold settle. rewrite Ht. simpl.
    eexists. split_and!; [done | simpl; by rewrite app_nil_r | | done].
    simpl. apply lookup_insert_eq.
  - intros Ht details item Hitem. destruct rest as [| following rest'].
    + simpl. unfold settle. rewrite Ht. simpl. rewrite Hitem. simpl.
      eexists. split_and!; [done | done | | done].
      simpl. apply lookup_delete_eq.
    + intros url Hurl. simpl. unfold settle. rewrite Ht. simpl.
      rewrite Hitem. simpl. rewrite Hurl.
      eexists. split_and!; [done | done | | done].
      simpl. apply lookup_insert_eq.
  - intros t r Ht Hfail.
    destruct (preview_failure_step m cid t r Ht Hfail)
      as (m' & Hstep & Hui & Htasks & Hfetched).
    exists m'. split_and!; [done | done | | done].
    rewrite Htasks. apply lookup_delete_eq.
Qed.

Lemma zip_with_take_length {A B C} (f : A → B → C) (k : list B) :
  ∀ l : list A, zip_with f (take (length k) l) k = zip_with f l k.
Proof.
  induction k as [| y k IH]; intros [| x l]; simpl; try done.
  by rewrite IH.
Qed.

(** The loop, run on [k] previews that arrive and parse, [k] below the
    number of entries: it has issued the fetches of the next [k] entries, one
    after each body, and is suspended on the last of them. *)
Lemma previews_run (cid status : nat) (bodies : list jsval) :
  ∀ (m : machine) (pokemon : jsval) (rest acc : list jsval),
    calls m !! cid = Some (ListItemResponse pokemon rest acc) →
    Forall fetchable rest →
    Forall2 parses (take (length bodies) (pokemon :: rest)) bodies →
    length bodies ≤ length rest →
    ∃ m',
      exec (deliverAll cid (map (Reply status) bodies)) m = Ok m' ∧
      ui m' = ui m ∧
      fetched m' = fetched m ++ map urlOf (take (length bodies) rest) ∧
      calls m' !! cid
        = Some (ListItemResponse
                  (nth (length bodies) (pokemon :: rest) JUndefined)
                  (drop (length bodies) rest)
                  (acc ++ zip_with itemOf (pokemon :: rest) bodies)).
Proof.
  induction bodies as [| details bodies IH];
    intros m pokemon rest acc Hcall Hurls Hparse Hlen.
  - exists m. simpl. rewrite !app_nil_r. by rewrite drop_0.
  - destruct rest as [| following rest]; [simpl in Hlen; lia |].
    simpl in Hparse. apply Forall2_cons in Hparse as [Hfirst Hparse].
    apply Forall_cons in Hurls as [Hurl Hurls].
    unfold parses in Hfirst. unfold fetchable in Hurl.
    destruct (previewItem pokemon details) as [item |] eqn:Hitem; [| done].
    destruct (Js.get following "url") as [url |] eqn:Hget; [| done].
    destruct (preview_steps m cid pokemon (following :: rest) acc)
      as (Hresp & _ & _).
    destruct (Hresp Hcall status) as (m1 & Hstep1 & Hf1 & Hc1 & Hui1).
    destruct (preview_steps m1 cid pokemon (following :: rest) acc)
      as (_ & Hbody & _).
    destruct (Hbody Hc1 details item Hitem url Hget)
      as (m2 & Hstep2 & Hf2 & Hc2 & Hui2).
    destruct (IH m2 following rest (acc ++ [item]) Hc2 Hurls Hparse)
      as (m' & Hrun & Hui & Hf & Hc); [simpl in Hlen; lia |].
    assert (Hit : itemOf pokemon details = item)
      by (unfold itemOf; by rewrite Hitem).
    assert (Hu : urlOf following = url) by (unfold urlOf; by rewrite Hget).
    exists m'. split_and!.
    + change (deliverAll cid (map (Reply status) (details :: bodies)))
        with (Settle cid (Response status) :: Settle cid (Body details) ::
              deliverAll cid (map (Reply status) bodies)).
      cbn [exec]. rewrite Hstep1. rewrite Hstep2. exact Hrun.
    + by rewrite Hui, Hui2, Hui1.
    + rewrite Hf, Hf2, Hf1. simpl. rewrite Hu. by rewrite <- app_assoc.
    + rewrite Hc. simpl. rewrite Hit. by rewrite <- app_assoc.
Qed.

(** C2, as the code has it: the previews are fetched one at a time, in
    sample order.  From the fetch of an entry, once [k] previews have
    settled, the call has issued [k] further fetches, one after each body,
    never touching the state cells, and is suspended on the last of them with
    the remaining entries not fetched.  From there a failure of the
    outstanding preview ends the call at once, the remaining entries never
    being fetched; and when no entry remains, the body of the outstanding
    preview writes the list: a success is seen after all have settled. *)
Theorem C2_previews_one_at_a_time (m : machine) (cid status : nat)
    (pokemon : jsval) (rest acc bodies : list jsval) :
  calls m !! cid = Some (ListItemResponse pokemon rest acc) →
  Forall fetchable rest →
  Forall2 parses (take (length bodies) (pokemon :: rest)) bodies →
  length bodies ≤ length rest →
  ∃ m' outstanding,
    exec (deliverAll cid (map (Reply status) bodies)) m = Ok m' ∧
    ui m' = ui m ∧
    fetched m' = fetched m ++ map urlOf (take (length bodies) rest) ∧
    outstanding = nth (length bodies) (pokemon :: rest) JUndefined ∧
    calls m' !! cid
      = Some (ListItemResponse outstanding (drop (length bodies) rest)
                (acc ++ zip_with itemOf (pokemon :: rest) bodies)) ∧
    (∃ m'', step (Settle cid Rejected) m' = Ok m'' ∧
            ui m'' = listFailed (ui m) ∧
            fetched m'' = fetched m' ∧
            calls m'' !! cid = None) ∧
    (length bodies = length rest →
     ∀ details, parses outstanding details →
       ∃ m'', exec (deliver cid (Reply status details)) m' = Ok m'' ∧
              fetched m'' = fetched m' ∧
              calls m'' !! cid = None ∧
              ui m'' = listLoaded
                         (acc ++ zip_with itemOf (pokemon :: rest)
                                   (bodies ++ [details]))
                         (ui m)).
Proof.
  intros Hcall Hurls Hparse Hlen.
  destruct (previews_run cid status bodies m pokemon rest acc
              Hcall Hurls Hparse Hlen) as (m' & Hrun & Hui & Hf & Hc).
  exists m', (nth (length bodies) (pokemon :: rest) JUndefined).
  split_and!; try done.
  - destruct (preview_steps m' cid
                (nth (length bodies) (pokemon :: rest) JUndefined)
                (drop (length bodies) rest)
                (acc ++ zip_with itemOf (pokemon :: rest) bodies))
      as (_ & _ & Hfail).
    destruct (Hfail _ Rejected Hc eq_refl) as (m'' & Hstep & Hf' & Hgone & Hui').
    exists m''. split_and!; try done. by rewrite Hui', Hui.
  - intros Hall details Hdetails.
    rewrite drop_ge in Hc by lia.
    set (outstanding := nth (length bodies) (pokemon :: rest) JUndefined) in *.
    unfold parses in Hdetails.
    destruct (previewItem outstanding details) as [item |] eqn:Hitem; [| done].
    destruct (preview_steps m' cid outstanding []
                (acc ++ zip_with itemOf (pokemon :: rest) bodies))
      as (Hresp & _ & _).
    destruct (Hresp Hc status) as (m1 & Hstep1 & Hf1 & Hc1 & Hui1).
    destruct (preview_steps m1 cid outstanding []
                (acc ++ zip_with itemOf (pokemon :: rest) bodies))
      as (_ & Hbody & _).
    destruct (Hbody Hc1 details item Hitem) as (m2 & Hstep2 & Hf2 & Hc2 & Hui2).
    exists m2. split_and!.
    + cbn [deliver exec]. by rewrite Hstep1, Hstep2.
    + by rewrite Hf2, Hf1.
    + exact Hc2.
    + rewrite Hui2, Hui1, Hui. f_equal. rewrite <- app_assoc. f_equal.
      rewrite zip_with_app_r, zip_with_take_length. f_equal.
      assert (Hlook : (pokemon :: rest) !! length bodies = Some outstanding).
      { subst outstanding. rewrite nth_lookup.
        destruct (lookup_lt_is_Some_2 (pokemon :: rest) (length bodies))
          as [p Hp]; [simpl; lia |].
        by rewrite Hp. }
      rewrite (drop_S _ _ _ Hlook). simpl. unfold itemOf at 1. rewrite Hitem.
      f_equal. by destruct (drop (length bodies) rest).
Qed.

Lemma C2_previews_one_at_a_time_witness :
  ∃ m',
    exec (deliverAll 0 (map (Reply 200)
            [Fixture.pokemon 1; Fixture.pokemon 2; Fixture.pokemon 3]))
      (Fixture.after (Mount :: deliver 0 (Reply 200 (Fixture.index 12)))
         (Fixture.draws 12 0)) = Ok m' ∧
    fetched m' = map JStr (indexUrl :: map Fixture.pokemonUrl [1; 2; 3; 4]).
Proof.
  destruct (C2_previews_one_at_a_time
              (Fixture.after (Mount :: deliver 0 (Reply 200 (Fixture.index 12)))
                 (Fixture.draws 12 0))
              0 200 (Fixture.entry 1) (map Fixture.entry (seq 2 9)) []
              [Fixture.pokemon 1; Fixture.pokemon 2; Fixture.pokemon 3])
    as (m' & outstanding & Hrun & _ & Hfetched & _).
  - vm_compute. reflexivity.
  - repeat (constructor; [discriminate |]). constructor.
  - repeat (constructor; [discriminate |]). constructor.
  - simpl. lia.
  - exists m'. split; [exact Hrun |]. rewrite Hfetched. vm_compute. reflexivity.
Defined.

(** C2 as stated fails: when the index has arrived and the sample is drawn,
    the first preview fetch has been issued and is outstanding, and the call
    is suspended on it with the nine other entries not yet fetched. *)
Lemma C2_counterexample :
  ∃ m rest,
    exec (Mount :: deliver 0 (Reply 200 (Fixture.index 12)))
      (boot (Fixture.draws 12 0)) = Ok m ∧
    calls m !! 0 = Some (ListItemResponse (Fixture.entry 1) rest []) ∧
    length rest = 9 ∧
    fetched m = [JStr indexUrl; JStr (Fixture.pokemonUrl 1)].
Proof.
  eexists. exists (map Fixture.entry (seq 2 9)).
  split; [vm_compute; reflexivity |].
  split_and!; vm_compute; reflexivity.
Qed.

(** ** Retry *)

(** What [onRetry] fetches: the [species.url] of the record in the detail
    cell, and nothing while the cell is empty. *)
Lemma onRetry_fetches (m : machine) :
  (selectedPokemon (ui m) = JNull → onRetry m = m) ∧
  (∀ url,
     Js.truthy (selectedPokemon (ui m)) = true →
     speciesUrl (selectedPokemon (ui m)) = Normal url →
     onRetry m = fetchPokemonDetails url m).
Proof.
  unfold onRetry. split.
  - by intros ->.
  - by intros url -> ->.
Qed.

(** C7 fails on the code: after entry 25 has been selected and loaded, Retry
    fetches the species URL of the loaded record, not the URL that was
    selected, and the retried call then fails on the species record, which
    has no [species] of its own; and after a selection has failed on first
    load, Retry does nothing although an entry is selected. *)
Theorem C7_retry_uses_species_url :
  (∃ m,
     exec (Select (Fixture.pokemonUrl 25) ::
           Fixture.detailLoad 0 25 ["text"] ++ [Retry])
       (boot []) = Ok m ∧
     fetched m = [JStr (Fixture.pokemonUrl 25);
                  JStr (Fixture.speciesUrlOf 25);
                  JStr (Fixture.speciesUrlOf 25)] ∧
     calls m !! 1 = Some DetailResponse ∧
     Fixture.speciesUrlOf 25 ≠ Fixture.pokemonUrl 25) ∧
  (∃ m,
     exec (Select (Fixture.pokemonUrl 25) ::
           Fixture.detailLoad 0 25 ["text"] ++ Retry ::
           deliver 1 (Reply 200 (Fixture.species ["text"])))
       (boot []) = Ok m ∧
     detailsError (ui m) = Some detailsErrorMessage) ∧
  exec [Select (Fixture.pokemonUrl 25); Settle 0 Rejected; Retry] (boot [])
    = exec [Select (Fixture.pokemonUrl 25); Settle 0 Rejected] (boot []).
Proof.
  split_and!.
  - eexists. split; [vm_compute; reflexivity |].
    split_and!; try (vm_compute; reflexivity). vm_compute. discriminate.
  - eexists. split; vm_compute; reflexivity.
  - vm_compute. reflexivity.
Qed.

(** ** More on the sampler *)

Lemma selection_app (a b seen : list nat) :
  selection seen (a ++ b) = selection (selection seen a) b.
Proof.
  revert seen. induction a as [| i a IH]; intros seen; simpl; [done |].
  by destruct (decide (i ∈ seen)).
Qed.

(** X1: the sampling loop returns exactly when the results of [Math.random]
    hold ten distinct indices; on any other supply, however long, it is
    still running when the supply ends. *)
Theorem sample_returns_iff (entropy : list Q) (results : list jsval) :
  is_Some (sample entropy results) ↔
  sampleSize ≤ length (selection [] (drawnIndices (length results) entropy)).
Proof.
  split.
  - intros [[res rest] Hrun].
    destruct (sampleLoop_selection results entropy [] res rest)
      as (consumed & -> & -> & Hlen); [simpl; unfold sampleSize; lia | exact Hrun |].
    rewrite length_map in Hlen.
    unfold drawnIndices. rewrite map_app, selection_app.
    etransitivity; [| apply selection_length]. unfold drawnIndices in Hlen. lia.
  - intros Hfair. exact (sampleLoop_returns results entropy [] Hfair).
Qed.

(** The loop never draws again once the sample is complete: before its last
    draw it had fewer than ten indices. *)
Lemma sampleLoop_minimal (results : list jsval) (entropy : list Q) :
  ∀ (seen : list nat) (res : list jsval) (rest : list Q),
    sampleLoop entropy results (list_to_set seen) (map (pick results) seen)
      = Some (res, rest) →
    ∃ consumed,
      entropy = consumed ++ rest ∧
      ∀ shorter extra,
        consumed = shorter ++ extra → extra ≠ [] →
        length (selection seen (drawnIndices (length results) shorter))
          < sampleSize.
Proof.
  induction entropy as [| r entropy IH]; intros seen res rest Hrun;
    simpl in Hrun; rewrite length_map in Hrun.
  - destruct (decide (length seen < sampleSize)); [discriminate |].
    inversion Hrun; subst. exists []. split; [done |].
    intros shorter extra Heq Hne. by destruct shorter, extra.
  - destruct (decide (length seen < sampleSize)) as [Hlt |].
    + assert (Hstep : ∃ seen',
                sampleLoop entropy results (list_to_set seen')
                  (map (pick results) seen') = Some (res, rest) ∧
                ∀ draws, selection seen
                           (randomIndexOf r (length results) :: draws)
                         = selection seen' draws).
      { destruct (decide (randomIndexOf r (length results) ∈ seen)) as [Hin | Hni].
        - exists seen. rewrite decide_True in Hrun by (by apply elem_of_list_to_set).
          split; [exact Hrun |]. intros draws. simpl. by rewrite decide_True.
        - exists (seen ++ [randomIndexOf r (length results)]).
          rewrite decide_False in Hrun by (by rewrite elem_of_list_to_set).
          split.
          + rewrite <- Hrun. f_equal.
            * rewrite list_to_set_app_L. simpl.
              rewrite (right_id_L ∅ (∪)). apply (comm_L (∪)).
            * by rewrite map_app.
          + intros draws. simpl. by rewrite decide_False. }
      destruct Hstep as (seen' & Hrun' & Hsel).
      destruct (IH seen' res rest Hrun') as (consumed & -> & Hmin).
      exists (r :: consumed). split; [done |].
      intros shorter extra Heq Hne. destruct shorter as [| r' shorter].
      * simpl. exact Hlt.
      * simpl in Heq. injection Heq as <- Heq.
        unfold drawnIndices. cbn [map]. rewrite Hsel.
        by apply (Hmin shorter extra).
    + inversion Hrun; subst. exists []. split; [done |].
      intros shorter extra Heq Hne. by destruct shorter, extra.
Qed.

(** X2: the sampler calls [Math.random] no more often than it needs: the
    draws it has consumed when it returns hold ten distinct indices, and no
    shorter run of them does. *)
Theorem sample_consumes_least (entropy : list Q) (results res : list jsval)
    (rest : list Q) :
  sample entropy results = Some (res, rest) →
  ∃ consumed,
    entropy = consumed ++ rest ∧
    length (selection [] (drawnIndices (length results) consumed)) = sampleSize ∧
    ∀ shorter extra,
      consumed = shorter ++ extra → extra ≠ [] →
      length (selection [] (drawnIndices (length results) shorter)) < sampleSize.
Proof.
  intros Hrun.
  destruct (sampleLoop_selection results entropy [] res rest)
    as (consumed & Hsplit & Hres & Hlen); [simpl; unfold sampleSize; lia | exact Hrun |].
  destruct (sampleLoop_minimal results entropy [] res rest Hrun)
    as (consumed' & Hsplit' & Hmin).
  assert (consumed' = consumed) as ->.
  { rewrite Hsplit in Hsplit'. by apply app_inv_tail in Hsplit'. }
  exists consumed. split_and!; [done | | exact Hmin].
  subst res. by rewrite length_map in Hlen.
Qed.

Lemma sample_consumes_least_witness :
  ∃ consumed,
    Fixture.draws 12 0 ++ Fixture.draws 12 2 = consumed ++ Fixture.draws 12 2 ∧
    length (selection [] (drawnIndices 12 consumed)) = sampleSize.
Proof.
  destruct (sample_consumes_least (Fixture.draws 12 0 ++ Fixture.draws 12 2)
              (Fixture.entries 12) (Fixture.entries 10) (Fixture.draws 12 2))
    as (consumed & Hsplit & Hlen & _).
  - vm_compute. reflexivity.
  - exists consumed. split; [exact Hsplit | exact Hlen].
Defined.

(** X3: on an index of exactly ten entries the sample, when the loop
    returns, is the whole index in the order of the draws: a permutation of
    the input. *)
Theorem sample_of_ten_is_permutation (entropy : list Q)
    (results res : list jsval) (rest : list Q) :
  length results = sampleSize →
  Forall unitDraw entropy →
  sample entropy results = Some (res, rest) →
  res ≡ₚ results.
Proof.
  intros Hten Hdraws Hrun.
  destruct (sampleLoop_selection results entropy [] res rest)
    as (consumed & -> & -> & Hlen); [simpl; unfold sampleSize; lia | exact Hrun |].
  rewrite length_map in Hlen.
  set (idxs := selection [] (drawnIndices (length results) consumed)) in *.
  apply Forall_app in Hdraws as [Hc _].
  assert (Hnd : NoDup idxs) by apply selection_NoDup, NoDup_nil_2.
  assert (Hall : Forall (λ i, i < length results) idxs).
  { apply selection_Forall; [constructor |].
    eapply Forall_impl; [apply (drawnIndices_bound _ _ Hc) |].
    simpl. intros i Hi. rewrite Hten in *. unfold sampleSize in *. lia. }
  assert (Hperm : idxs ≡ₚ seq 0 (length results)).
  { apply submseteq_length_Permutation.
    - apply NoDup_submseteq; [exact Hnd |].
      intros i Hi. rewrite Forall_forall in Hall. apply elem_of_seq.
      specialize (Hall i Hi). lia.
    - rewrite length_seq. lia. }
  rewrite Hperm.
  assert (Hid : ∀ (l : list jsval) (pre : list jsval),
            map (pick (pre ++ l)) (seq (length pre) (length l)) = l).
  { induction l as [| x l IHl]; intros pre; [done |].
    simpl. f_equal.
    - unfold pick. rewrite lookup_app_r by lia. by rewrite Nat.sub_diag.
    - replace (pre ++ x :: l) with ((pre ++ [x]) ++ l) by (by rewrite <- app_assoc).
      replace (S (length pre)) with (length (pre ++ [x]))
        by (rewrite length_app; simpl; lia).
      apply IHl. }
  specialize (Hid results []). simpl in Hid. by rewrite Hid.
Qed.

Lemma sample_of_ten_is_permutation_witness :
  ∃ res, sample (Fixture.draws 10 0) (Fixture.entries 10) = Some (res, []) ∧
         res ≡ₚ Fixture.entries 10.
Proof.
  exists (Fixture.entries 10). split; [vm_compute; reflexivity |].
  apply (sample_of_ten_is_permutation (Fixture.draws 10 0) _ _ []).
  - reflexivity.
  - unit_draws.
  - vm_compute. reflexivity.
Defined.

(** ** Invariants of the reachable states *)

Lemma bind_Normal {A B} (c : completion A) (k : A → completion B) (b : B) :
  c ≫= k = Normal b → ∃ a, c = Normal a ∧ k a = Normal b.
Proof. destruct c as [a |]; [eauto | discriminate]. Qed.

Lemma previewItem_isPreview (pokemon details item : jsval) :
  previewItem pokemon details = Normal item → isPreview item.
Proof.
  unfold previewItem. intros H.
  apply bind_Normal in H as (name & _ & H).
  apply bind_Normal in H as (url & _ & H).
  apply bind_Normal in H as (sprites & _ & H).
  apply bind_Normal in H as (image & _ & H).
  injection H as <-. by exists name, url, image.
Qed.

Lemma speciesUrl_object (data url : jsval) :
  speciesUrl data = Normal url → ∃ o, data = JObj o.
Proof. destruct data; try discriminate. eauto. Qed.

Lemma speciesUrl_merged (d : jsval) (o : list (string * jsval)) :
  speciesUrl (JObj (Js.set "description" d o)) = speciesUrl (JObj o).
Proof.
  unfold speciesUrl. simpl. by rewrite lookup_set_ne.
Qed.

Lemma description_truthy (speciesData d : jsval) :
  description speciesData = Normal d → Js.truthy d = true.
Proof.
  unfold description. intros H.
  apply bind_Normal in H as (entries & _ & H).
  apply bind_Normal in H as (first & _ & H).
  apply bind_Normal in H as (text & _ & H).
  injection H as <-. unfold Js.or_else.
  by destruct (Js.truthy text) eqn:Ht.
Qed.

Lemma detailRecord_ok (data speciesData record : jsval) :
  speciesUrl data ≠ Throw →
  detailRecord data speciesData = Normal record →
  detailCellOk record.
Proof.
  intros Hurl. unfold detailRecord.
  destruct (description speciesData) as [d |] eqn:Hd; [| discriminate].
  simpl. intros [= <-]. right.
  destruct (speciesUrl data) as [url |] eqn:Hdata; [| done].
  destruct (speciesUrl_object data url Hdata) as [o ->].
  exists (Js.set "description" d o), d, url. split_and!.
  - done.
  - apply lookup_set_eq.
  - by eapply description_truthy.
  - simpl Js.spread. by rewrite speciesUrl_merged.
Qed.

Lemma nextItem_Suspend (todo acc : list jsval) (e e' : list Q) (c : call)
    (request : option jsval) :
  nextItem todo acc e = Suspend c request e' →
  ∃ pokemon rest, todo = pokemon :: rest ∧ c = ListItemResponse pokemon rest acc.
Proof.
  destruct todo as [| pokemon rest]; simpl; [discriminate |].
  destruct (Js.get pokemon "url"); [| discriminate].
  intros [= <- _ _]. eauto.
Qed.

(** A step of a call keeps its kind and what its locals satisfy. *)
Lemma resume_Suspend_wf (c c' : call) (r : settlement) (e e' : list Q)
    (request : option jsval) :
  wellFormedCall c →
  resume c r e = Suspend c' request e' →
  wellFormedCall c' ∧ isListCall c' = isListCall c.
Proof.
  intros Hwf. destruct c, r; simpl; try discriminate;
    try (intros [= <- _ _]; by split).
  - unfold sampleIndex.
    destruct (resultsOf v) as [results | | |]; try discriminate;
      [| by destruct e].
    destruct (sample e results) as [[randomPokemon e1] |] eqn:Hs; [| discriminate].
    intros Hn. apply nextItem_Suspend in Hn as (p & rest & -> & ->).
    apply sample_nonempty in Hs. simpl in *. split; [| done].
    split; [lia | constructor].
  - destruct (previewItem pokemon v) as [item |] eqn:Hitem; [| discriminate].
    intros Hn. apply nextItem_Suspend in Hn as (p & rest' & -> & ->).
    destruct Hwf as [Hlen Hacc]. simpl in *. split; [| done]. split.
    + rewrite length_app. simpl. lia.
    + apply Forall_app. split; [done |].
      constructor; [by eapply previewItem_isPreview | constructor].
  - destruct (speciesUrl v) eqn:Hurl; [| discriminate].
    intros [= <- _ _]. split; [| done]. simpl. by rewrite Hurl.
  - by destruct (detailRecord data v).
Qed.

Lemma finishes_kind (c : call) (r : settlement) (u : AppState → AppState) :
  finishes c r u →
  if isListCall c
  then (∀ s, detailCells (u s) = detailCells s) ∧ (∀ s, loading (u s) = false)
  else (∀ s, listCells (u s) = listCells s) ∧ (∀ s, detailsLoading (u s) = false).
Proof.
  destruct 1 as [c r Hc | | c r Hc |]; try (destruct c; try done); by split.
Qed.

Lemma finishes_shape (c : call) (r : settlement) (u : AppState → AppState)
    (s : AppState) :
  wellFormedCall c →
  finishes c r u →
  listCellOk (pokemonList s) →
  detailCellOk (selectedPokemon s) →
  listCellOk (pokemonList (u s)) ∧ detailCellOk (selectedPokemon (u s)).
Proof.
  intros Hwf Hfin Hlist Hdetail.
  destruct Hfin as [| pokemon acc details item Hitem | | data speciesData record Hrec];
    simpl; try (by split).
  - split; [| done]. destruct Hwf as [Hlen Hacc].
    exists (acc ++ [item]). split_and!; [done | |].
    + right. rewrite length_app. simpl in *. lia.
    + apply Forall_app. split; [done |].
      constructor; [by eapply previewItem_isPreview | constructor].
  - split; [done |]. by eapply detailRecord_ok.
Qed.

Lemma settle_next (cid : nat) (r : settlement) (m m' : machine) :
  settle cid r m = Ok m' → next m' = next m.
Proof.
  unfold settle. destruct (calls m !! cid) as [c |]; [| discriminate].
  destruct (resume c r (entropy m)); try discriminate; by intros [= <-].
Qed.

Lemma consistent_boot (entropy : list Q) : consistent (boot entropy).
Proof.
  split; simpl; try done.
  - exists []. split_and!; [done | by left | constructor].
  - by left.
Qed.

Lemma consistent_start (c : call) (url : jsval) (s : AppState) (m : machine) :
  consistent m →
  wellFormedCall c →
  pokemonList s = pokemonList (ui m) →
  selectedPokemon s = selectedPokemon (ui m) →
  (if isListCall c then detailsLoading s = detailsLoading (ui m)
   else loading s = loading (ui m)) →
  consistent (start c url s m).
Proof.
  intros [Hfresh Hwf Hlist Hdetail Hload Hdload] Hc Hl Hd Hother.
  assert (Hold : ∀ cid c', calls m !! cid = Some c' →
                   <[next m := c]> (calls m) !! cid = Some c').
  { intros cid c' Hc'. rewrite lookup_insert_ne; [done |].
    specialize (Hfresh cid c' Hc'). lia. }
  split; simpl.
  - intros cid c'. rewrite lookup_insert. case_decide.
    + intros _. lia.
    + intros Hc'. specialize (Hfresh cid c' Hc'). lia.
  - intros cid c'. rewrite lookup_insert. case_decide.
    + by intros [= <-].
    + apply Hwf.
  - by rewrite Hl.
  - by rewrite Hd.
  - intros Hon. destruct (isListCall c) eqn:Hkind.
    + exists (next m), c. by rewrite lookup_insert_eq.
    + rewrite Hother in Hon. destruct (Hload Hon) as (cid & c' & Hc' & Hk).
      exists cid, c'. split; [by apply Hold | done].
  - intros Hon. destruct (isListCall c) eqn:Hkind.
    + rewrite Hother in Hon. destruct (Hdload Hon) as (cid & c' & Hc' & Hk).
      exists cid, c'. split; [by apply Hold | done].
    + exists (next m), c. by rewrite lookup_insert_eq.
Qed.

Lemma consistent_onRetry (m : machine) : consistent m → consistent (onRetry m).
Proof.
  intros Hm. destruct (onRetry_cases m) as [-> | [url ->]]; [done |].
  by apply consistent_start.
Qed.

Lemma consistent_settle (cid : nat) (r : settlement) (m m' : machine) :
  consistent m → settle cid r m = Ok m' → consistent m'.
Proof.
  intros [Hfresh Hwf Hlist Hdetail Hload Hdload] Hstep.
  pose proof (settle_next cid r m m' Hstep) as Hnext.
  apply settle_Ok in Hstep
    as (c & Hc & [(c' & request & e' & Hres & Hui & Hcalls & _)
                 | (u & Hfin & Hui & Hcalls & _)]).
  - destruct (resume_Suspend_wf c c' r _ _ _ (Hwf cid c Hc) Hres) as [Hwf' Hkind].
    assert (Hkeep : ∀ k, (∃ cid0 c0, calls m !! cid0 = Some c0 ∧ isListCall c0 = k) →
                       ∃ cid0 c0, calls m' !! cid0 = Some c0 ∧ isListCall c0 = k).
    { intros k (cid0 & c0 & Hc0 & Hk). rewrite Hcalls.
      destruct (decide (cid0 = cid)) as [-> | Hne].
      - exists cid, c'. rewrite lookup_insert_eq. split; [done |]. congruence.
      - exists cid0, c0. by rewrite lookup_insert_ne. }
    split; rewrite ?Hui, ?Hnext.
    + intros cid0 c0. rewrite Hcalls, lookup_insert. case_decide.
      * subst. intros _. by apply (Hfresh cid0 c).
      * apply Hfresh.
    + intros cid0 c0. rewrite Hcalls, lookup_insert. case_decide.
      * by intros [= <-].
      * apply Hwf.
    + done.
    + done.
    + intros Hon. by apply Hkeep, Hload.
    + intros Hon. by apply Hkeep, Hdload.
  - destruct (finishes_shape c r u (ui m) (Hwf cid c Hc) Hfin Hlist Hdetail)
      as [Hlist' Hdetail'].
    pose proof (finishes_kind c r u Hfin) as Hkind.
    assert (Hkeep : ∀ k, k ≠ isListCall c →
                       (∃ cid0 c0, calls m !! cid0 = Some c0 ∧ isListCall c0 = k) →
                       ∃ cid0 c0, calls m' !! cid0 = Some c0 ∧ isListCall c0 = k).
    { intros k Hk (cid0 & c0 & Hc0 & Hk0). rewrite Hcalls.
      exists cid0, c0. split; [| done]. rewrite lookup_delete_ne; [done |].
      intros ->. congruence. }
    split; rewrite ?Hui, ?Hnext.
    + intros cid0 c0. rewrite Hcalls. intros Hc0.
      apply lookup_delete_Some in Hc0 as [_ Hc0]. by apply (Hfresh cid0 c0).
    + intros cid0 c0. rewrite Hcalls. intros Hc0.
      apply lookup_delete_Some in Hc0 as [_ Hc0]. by apply (Hwf cid0 c0).
    + done.
    + done.
    + destruct (isListCall c) eqn:Hk; destruct Hkind as [Hframe Hoff].
      * rewrite Hoff. discriminate.
      * intros Hon. apply Hkeep; [congruence |]. apply Hload.
        specialize (Hframe (ui m)). unfold listCells in Hframe. congruence.
    + destruct (isListCall c) eqn:Hk; destruct Hkind as [Hframe Hoff].
      * intros Hon. apply Hkeep; [congruence |]. apply Hdload.
        specialize (Hframe (ui m)). unfold detailCells in Hframe. congruence.
      * rewrite Hoff. discriminate.
Qed.

Lemma consistent_step (l : label) (m m' : machine) :
  consistent m → step l m = Ok m' → consistent m'.
Proof.
  intros Hm. destruct l; simpl.
  - case_decide; [| discriminate]. intros [= <-]. by apply consistent_start.
  - intros [= <-]. by apply consistent_start.
  - intros [= <-]. by apply consistent_start.
  - intros [= <-]. by apply consistent_onRetry.
  - by apply consistent_settle.
Qed.

Lemma consistent_exec (trace : list label) :
  ∀ m m', consistent m → exec trace m = Ok m' → consistent m'.
Proof.
  induction trace as [| l trace IH]; intros m m' Hm; simpl.
  - by intros [= <-].
  - destruct (step l m) as [m1 | |] eqn:Hl; try discriminate.
    apply IH. by eapply consistent_step.
Qed.

Lemma reachable_consistent (m : machine) : reachable m → consistent m.
Proof.
  intros (entropy & trace & Hrun).
  eapply consistent_exec; [apply consistent_boot | exact Hrun].
Qed.

(** X4: in every reachable state the list cell is the empty array or an
    array of exactly ten objects, each with the three properties [name],
    [url] and [image] in this order. *)
Theorem list_is_empty_or_ten_previews (m : machine) :
  reachable m →
  ∃ items,
    pokemonList (ui m) = JArr items ∧
    (items = [] ∨ length items = sampleSize) ∧
    Forall isPreview items.
Proof. intros Hm. exact (list_shape m (reachable_consistent m Hm)). Qed.

Lemma list_is_empty_or_ten_previews_witness :
  ∃ items,
    pokemonList (ui (Fixture.after (Mount :: Fixture.listLoad 0 12 1)
                       (Fixture.draws 12 0))) = JArr items ∧
    (items = [] ∨ length items = sampleSize) ∧
    Forall isPreview items.
Proof.
  apply list_is_empty_or_ten_previews.
  exists (Fixture.draws 12 0), (Mount :: Fixture.listLoad 0 12 1).
  vm_compute. reflexivity.
Defined.

(** X5: in every reachable state the detail cell is [null] or an object
    whose [description] is truthy (never missing, [null] or the empty
    string) and whose [species.url] can be read. *)
Theorem detail_is_null_or_described (m : machine) :
  reachable m →
  selectedPokemon (ui m) = JNull ∨
  ∃ o d url,
    selectedPokemon (ui m) = JObj o ∧
    Js.lookup "description" o = Some d ∧
    Js.truthy d = true ∧
    speciesUrl (selectedPokemon (ui m)) = Normal url.
Proof. intros Hm. exact (detail_shape m (reachable_consistent m Hm)). Qed.

Lemma detail_is_null_or_described_witness :
  selectedPokemon (ui (Fixture.after
     (Select (Fixture.pokemonUrl 25) :: Fixture.detailLoad 0 25 [""]) [])) = JNull ∨
  ∃ o d url,
    selectedPokemon (ui (Fixture.after
      (Select (Fixture.pokemonUrl 25) :: Fixture.detailLoad 0 25 [""]) [])) = JObj o ∧
    Js.lookup "description" o = Some d ∧
    Js.truthy d = true ∧
    speciesUrl (selectedPokemon (ui (Fixture.after
      (Select (Fixture.pokemonUrl 25) :: Fixture.detailLoad 0 25 [""]) [])))
      = Normal url.
Proof.
  apply detail_is_null_or_described.
  exists [], (Select (Fixture.pokemonUrl 25) :: Fixture.detailLoad 0 25 [""]).
  vm_compute. reflexivity.
Defined.

(** X6: in every reachable state [onRetry] does not throw.  With nothing
    loaded it does nothing; otherwise it starts an expanded resolution on the
    [species.url] of the loaded record: one more call, one more fetch, of
    that URL, [detailsLoading] on, [detailsError] cleared, the record and
    the list slot left as they are. *)
Theorem retry_in_reachable_state (m : machine) :
  reachable m →
  (selectedPokemon (ui m) = JNull ∧ onRetry m = m) ∨
  ∃ url,
    speciesUrl (selectedPokemon (ui m)) = Normal url ∧
    onRetry m = fetchPokemonDetails url m ∧
    fetched (onRetry m) = fetched m ++ [url] ∧
    calls (onRetry m) !! next m = Some DetailResponse ∧
    detailsLoading (ui (onRetry m)) = true ∧
    detailsError (ui (onRetry m)) = None ∧
    selectedPokemon (ui (onRetry m)) = selectedPokemon (ui m) ∧
    listCells (ui (onRetry m)) = listCells (ui m).
Proof.
  intros Hm.
  destruct (detail_shape m (reachable_consistent m Hm))
    as [Hnull | (o & d & url & Hsel & _ & _ & Hurl)].
  - left. split; [done |]. unfold onRetry. by rewrite Hnull.
  - right. exists url.
    assert (Hretry : onRetry m = fetchPokemonDetails url m).
    { unfold onRetry. rewrite Hurl, Hsel. done. }
    rewrite Hretry. split_and!; try done. simpl. apply lookup_insert_eq.
Qed.

Lemma retry_in_reachable_state_witness :
  ∃ url,
    onRetry (Fixture.after
      (Select (Fixture.pokemonUrl 25) :: Fixture.detailLoad 0 25 ["text"]) [])
    = fetchPokemonDetails url (Fixture.after
      (Select (Fixture.pokemonUrl 25) :: Fixture.detailLoad 0 25 ["text"]) []).
Proof.
  destruct (retry_in_reachable_state (Fixture.after
      (Select (Fixture.pokemonUrl 25) :: Fixture.detailLoad 0 25 ["text"]) []))
    as [[Hnull _] | (url & _ & Hretry & _)].
  - exists [], (Select (Fixture.pokemonUrl 25) :: Fixture.detailLoad 0 25 ["text"]).
    vm_compute. reflexivity.
  - vm_compute in Hnull. discriminate.
  - by exists url.
Defined.

(** X7: a loading flag is never on with nothing in flight: in every
    reachable state, [loading] on means that a call of [fetchPokemonList] is
    suspended, and [detailsLoading] on that a call of [fetchPokemonDetails]
    is. *)
Theorem loading_means_pending (m : machine) :
  reachable m →
  (loading (ui m) = true →
   ∃ cid c, calls m !! cid = Some c ∧ isListCall c = true) ∧
  (detailsLoading (ui m) = true →
   ∃ cid c, calls m !! cid = Some c ∧ isListCall c = false).
Proof.
  intros Hm. pose proof (reachable_consistent m Hm) as Hc.
  split; [apply (loading_pending m Hc) | apply (detailsLoading_pending m Hc)].
Qed.

Lemma loading_means_pending_witness :
  ∃ cid c,
    calls (Fixture.after [Mount; Select (Fixture.pokemonUrl 25); Settle 0 (Response 200)] [])
      !! cid = Some c ∧
    isListCall c = true.
Proof.
  refine (proj1 (loading_means_pending
    (Fixture.after [Mount; Select (Fixture.pokemonUrl 25); Settle 0 (Response 200)] []) _) _).
  - exists [], [Mount; Select (Fixture.pokemonUrl 25); Settle 0 (Response 200)].
    vm_compute. reflexivity.
  - vm_compute. reflexivity.
Defined.

(** X8: a slot never shows loading and an error together: in every
    reachable state, [loading] on implies [error] is [null], and
    [detailsLoading] on implies [detailsError] is [null]. *)
Theorem loading_excludes_error (m : machine) :
  reachable m →
  (loading (ui m) = true → error (ui m) = None) ∧
  (detailsLoading (ui m) = true → detailsError (ui m) = None).
Proof.
  intros (entropy & trace & Hrun).
  apply (exec_invariant
           (λ s, (loading s = true → error s = None) ∧
                 (detailsLoading s = true → detailsError s = None)))
    with (trace := trace) (m := boot entropy); [| exact Hrun | done].
  intros s s' Hch [Hl Hd]. destruct Hch; simpl; split; try done.
Qed.

Lemma loading_excludes_error_witness :
  error (ui (Fixture.after
    [Mount; Settle 0 Rejected; Refresh; Settle 1 (Response 200)] [])) = None.
Proof.
  refine (proj1 (loading_excludes_error (Fixture.after
    [Mount; Settle 0 Rejected; Refresh; Settle 1 (Response 200)] []) _) _).
  - exists [], [Mount; Settle 0 Rejected; Refresh; Settle 1 (Response 200)].
    vm_compute. reflexivity.
  - vm_compute. reflexivity.
Defined.

(** ** The two slots do not interfere *)

Lemma step_frame (l : label) (m m' : machine) :
  step l m = Ok m' →
  if listLabel m l then detailCells (ui m') = detailCells (ui m)
  else listCells (ui m') = listCells (ui m).
Proof.
  destruct l; simpl.
  - case_decide; [| discriminate]. by intros [= <-].
  - by intros [= <-].
  - by intros [= <-].
  - intros [= <-]. by destruct (onRetry_cases m) as [-> | [url ->]].
  - intros H. apply settle_Ok in H
      as (c & -> & [(? & ? & ? & _ & -> & _) | (u & Hfin & -> & _)]).
    + by destruct (isListCall c).
    + pose proof (finishes_kind c r u Hfin) as Hkind.
      destruct (isListCall c); apply Hkind.
Qed.

(** X9: list work never touches the detail slot and detail work never
    touches the list slot.  Along any run made only of mounts, refreshes and
    settlements of list calls, whether they succeed or fail, the detail
    record, [detailsLoading] and [detailsError] stay as they were; along any
    run made only of selections, retries and settlements of detail calls,
    the list, [loading] and [error] stay as they were. *)
Theorem slots_are_independent (trace : list label) :
  ∀ m m',
    exec trace m = Ok m' →
    (along listLabel trace m → detailCells (ui m') = detailCells (ui m)) ∧
    (along (λ m l, negb (listLabel m l)) trace m →
     listCells (ui m') = listCells (ui m)).
Proof.
  induction trace as [| l trace IH]; intros m m'; simpl.
  - by intros [= <-].
  - destruct (step l m) as [m1 | |] eqn:Hl; try discriminate.
    intros Hrun. destruct (IH m1 m' Hrun) as [IHl IHd].
    pose proof (step_frame l m m1 Hl) as Hframe.
    split; intros [Hkind Hrest].
    + rewrite Hkind in Hframe. rewrite <- Hframe. by apply IHl.
    + apply negb_true_iff in Hkind. rewrite Hkind in Hframe.
      rewrite <- Hframe. by apply IHd.
Qed.

Lemma slots_are_independent_witness :
  detailCells (ui (Fixture.after
    (Select (Fixture.pokemonUrl 25) :: Fixture.detailLoad 0 25 ["text"] ++
     Refresh :: deliver 1 NetworkError) []))
  = detailCells (ui (Fixture.after
    (Select (Fixture.pokemonUrl 25) :: Fixture.detailLoad 0 25 ["text"]) [])).
Proof.
  refine (proj1 (slots_are_independent (Refresh :: deliver 1 NetworkError)
    (Fixture.after
       (Select (Fixture.pokemonUrl 25) :: Fixture.detailLoad 0 25 ["text"]) [])
    (Fixture.after
       (Select (Fixture.pokemonUrl 25) :: Fixture.detailLoad 0 25 ["text"] ++
        Refresh :: deliver 1 NetworkError) []) _) _).
  - vm_compute. reflexivity.
  - vm_compute. tauto.
Defined.

(** ** The detail slot keeps its record *)

(** The detail cell is written by one step only: the one in which the
    secondary record of an expanded resolution arrives and merges. *)
Lemma detail_written_on_success (l : label) (m m' : machine) :
  step l m = Ok m' →
  selectedPokemon (ui m') = selectedPokemon (ui m) ∨
  ∃ cid data speciesData record,
    l = Settle cid (Body speciesData) ∧
    calls m !! cid = Some (SpeciesJson data) ∧
    detailRecord data speciesData = Normal record ∧
    selectedPokemon (ui m') = record ∧
    detailsLoading (ui m') = false.
Proof.
  destruct l; simpl.
  - case_decide; [| discriminate]. intros [= <-]. by left.
  - intros [= <-]. by left.
  - intros [= <-]. by left.
  - intros [= <-]. destruct (onRetry_cases m) as [-> | [url ->]]; by left.
  - intros H. apply settle_Ok in H
      as (t & Ht & [(? & ? & ? & _ & -> & _) | (u & Hf & -> & _)]).
    + by left.
    + destruct Hf; try (by left).
      right. by exists cid, data, speciesData, record.
Qed.

Lemma detailsLoading_keeps_record (trace : list label) :
  ∀ m m', detailsLoadingThroughout trace m → exec trace m = Ok m' →
    selectedPokemon (ui m') = selectedPokemon (ui m).
Proof.
  induction trace as [| l trace IH]; intros m m'; simpl.
  - by intros _ [= <-].
  - destruct (step l m) as [m1 | |] eqn:Hl; try done.
    intros [Hload Hrest] Hrun. rewrite (IH m1 m' Hrest Hrun).
    destruct (detail_written_on_success l m m1 Hl)
      as [-> | (? & ? & ? & ? & _ & _ & _ & _ & Hoff)]; [done | congruence].
Qed.

(** X10: a selection does not blank the detail panel.  [handleSelectPokemon]
    turns [detailsLoading] on and clears [detailsError] without writing the
    record or the list slot, and issues one fetch, of the URL it is given; as
    long as [detailsLoading] stays on afterwards, whatever happens, the
    detail cell holds the record it held before the selection. *)
Theorem selection_keeps_record_while_loading (m : machine) (url : string)
    (trace : list label) (m' : machine) :
  detailsLoadingThroughout trace (fetchPokemonDetails (JStr url) m) →
  exec (Select url :: trace) m = Ok m' →
  detailsLoading (ui (fetchPokemonDetails (JStr url) m)) = true ∧
  detailsError (ui (fetchPokemonDetails (JStr url) m)) = None ∧
  selectedPokemon (ui (fetchPokemonDetails (JStr url) m)) = selectedPokemon (ui m) ∧
  listCells (ui (fetchPokemonDetails (JStr url) m)) = listCells (ui m) ∧
  fetched (fetchPokemonDetails (JStr url) m) = fetched m ++ [JStr url] ∧
  selectedPokemon (ui m') = selectedPokemon (ui m).
Proof.
  intros Hload Hrun. simpl in Hrun. split_and!; try done.
  by rewrite (detailsLoading_keeps_record trace _ _ Hload Hrun).
Qed.

Lemma selection_keeps_record_while_loading_witness :
  selectedPokemon (ui (Fixture.after
    (Select (Fixture.pokemonUrl 25) :: Fixture.detailLoad 0 25 ["text"] ++
     Select (Fixture.pokemonUrl 7) :: deliver 1 (Reply 200 (Fixture.pokemon 7))) []))
  = Fixture.detail 25 "text".
Proof.
  refine (eq_trans (proj2 (proj2 (proj2 (proj2 (proj2
    (selection_keeps_record_while_loading
       (Fixture.after
          (Select (Fixture.pokemonUrl 25) :: Fixture.detailLoad 0 25 ["text"]) [])
       (Fixture.pokemonUrl 7)
       (deliver 1 (Reply 200 (Fixture.pokemon 7)))
       (Fixture.after
          (Select (Fixture.pokemonUrl 25) :: Fixture.detailLoad 0 25 ["text"] ++
           Select (Fixture.pokemonUrl 7) ::
           deliver 1 (Reply 200 (Fixture.pokemon 7))) []) _ _)))))) _).
  - vm_compute. tauto.
  - vm_compute. reflexivity.
  - vm_compute. reflexivity.
Defined.

Lemma detail_failure_step (m : machine) (cid : nat) (c : call) (r : settlement) :
  calls m !! cid = Some c →
  detailFails c r = true →
  ∃ m', step (Settle cid r) m = Ok m' ∧
    ui m' = detailsFailed (ui m) ∧
    calls m' = delete cid (calls m) ∧
    fetched m' = fetched m.
Proof.
  intros Hc Hf. simpl. unfold settle. rewrite Hc.
  destruct c, r; simpl in Hf; try discriminate; simpl; try (by eexists).
  - destruct (speciesUrl v); [discriminate | by eexists].
  - destruct (detailRecord data v); [discriminate | by eexists].
Qed.

(** X11: when an expanded resolution fails, at whichever of its four awaits
    (a promise rejects, the primary record has no [species], the secondary
    record has no description list), the call ends with the fixed message in
    [detailsError] and [detailsLoading] off; the detail cell holds exactly
    the record it held before the selection, the list slot is untouched, and
    the call issues no further request. *)
Theorem detail_failure_keeps_record (m : machine) (url : string)
    (trace : list label) (m1 : machine) (c : call) (r : settlement) :
  Forall (λ l, settlesOf (next m) l = true) trace →
  exec (Select url :: trace) m = Ok m1 →
  calls m1 !! next m = Some c →
  detailFails c r = true →
  ∃ m2,
    step (Settle (next m) r) m1 = Ok m2 ∧
    detailsError (ui m2) = Some detailsErrorMessage ∧
    detailsLoading (ui m2) = false ∧
    selectedPokemon (ui m2) = selectedPokemon (ui m) ∧
    listCells (ui m2) = listCells (ui m) ∧
    calls m2 !! next m = None ∧
    fetched m2 = fetched m1.
Proof.
  intros Hown Hrun Hc Hfail. simpl in Hrun.
  destruct (detail_failure_step m1 (next m) c r Hc Hfail)
    as (m2 & Hstep & Hui & Hcalls & Hfetched).
  pose proof (own_settles_keep_ui (next m) trace _ m1 Hown Hrun
                ltac:(by rewrite Hc)) as Hkeep.
  exists m2. split_and!; try done.
  - by rewrite Hui.
  - by rewrite Hui.
  - rewrite Hui. simpl. by rewrite Hkeep.
  - rewrite Hui. unfold listCells. simpl. by rewrite Hkeep.
  - rewrite Hcalls. apply lookup_delete_eq.
Qed.

Lemma detail_failure_keeps_record_witness :
  ∃ m2,
    step (Settle 1 (Body (JObj [("name", JStr "pikachu")])))
      (Fixture.after
         (Select (Fixture.pokemonUrl 25) :: Fixture.detailLoad 0 25 ["text"] ++
          Select (Fixture.pokemonUrl 7) ::
          deliver 1 (Reply 200 (Fixture.pokemon 7)) ++ [Settle 1 (Response 200)]) [])
      = Ok m2 ∧
    detailsError (ui m2) = Some detailsErrorMessage ∧
    selectedPokemon (ui m2) = Fixture.detail 25 "text".
Proof.
  destruct (detail_failure_keeps_record
              (Fixture.after
                 (Select (Fixture.pokemonUrl 25) :: Fixture.detailLoad 0 25 ["text"]) [])
              (Fixture.pokemonUrl 7)
              (deliver 1 (Reply 200 (Fixture.pokemon 7)) ++ [Settle 1 (Response 200)])
              (Fixture.after
                 (Select (Fixture.pokemonUrl 25) :: Fixture.detailLoad 0 25 ["text"] ++
                  Select (Fixture.pokemonUrl 7) ::
                  deliver 1 (Reply 200 (Fixture.pokemon 7)) ++
                  [Settle 1 (Response 200)]) [])
              (SpeciesJson (Fixture.pokemon 7))
              (Body (JObj [("name", JStr "pikachu")])))
    as (m2 & Hstep & Herr & _ & Hsel & _).
  - vm_compute. repeat constructor.
  - vm_compute. reflexivity.
  - vm_compute. reflexivity.
  - reflexivity.
  - exists m2. split_and!; [exact Hstep | exact Herr |].
    rewrite Hsel. vm_compute. reflexivity.
Defined.

(** ** Whole loads *)

(** One settlement of a call that goes on, and one that ends it. *)
Lemma settle_Suspend (cid : nat) (r : settlement) (m : machine) (c c' : call)
    (request : option jsval) (e' : list Q) :
  calls m !! cid = Some c →
  resume c r (entropy m) = Suspend c' request e' →
  step (Settle cid r) m
    = Ok {| ui := ui m;
            calls := <[cid := c']> (calls m);
            next := next m;
            fetched := fetched m ++ option_list request;
            entropy := e' |}.
Proof. intros Hc Hres. simpl. unfold settle. by rewrite Hc, Hres. Qed.

Lemma settle_Finish (cid : nat) (r : settlement) (m : machine) (c : call)
    (u : AppState → AppState) (e' : list Q) :
  calls m !! cid = Some c →
  resume c r (entropy m) = Finish u e' →
  step (Settle cid r) m
    = Ok {| ui := u (ui m);
            calls := delete cid (calls m);
            next := next m;
            fetched := fetched m;
            entropy := e' |}.
Proof. intros Hc Hres. simpl. unfold settle. by rewrite Hc, Hres. Qed.

(** X12: a list load whose index cannot be used (the fetch rejects, the body
    is not JSON, or the parsed index is [null] or has no [results]) ends
    with the fixed message in [error] and [loading] off, after the one fetch
    of the index: no preview is fetched, and the list and the detail slot
    are as before.  [Math.random] is not called when the fetch rejects or
    the body is not JSON; on a parsed index it is called once, by line 51,
    before the read of [data.results.length] throws. *)
Theorem index_failure_fetches_no_preview (m : machine) (x : exchange)
    (r : Q) (rest : list Q) :
  indexExchangeFails x = true →
  entropy m = r :: rest →
  ∃ m',
    exec (Refresh :: deliver (next m) x) m = Ok m' ∧
    error (ui m') = Some listErrorMessage ∧
    loading (ui m') = false ∧
    pokemonList (ui m') = pokemonList (ui m) ∧
    detailCells (ui m') = detailCells (ui m) ∧
    fetched m' = fetched m ++ [JStr indexUrl] ∧
    calls m' !! next m = None ∧
    entropy m' = match x with
                 | Reply _ _ => rest
                 | _ => r :: rest
                 end.
Proof.
  intros Hfail Hdraws.
  assert (H0 : calls (fetchPokemonList m) !! next m = Some ListIndexResponse)
    by apply lookup_insert_eq.
  cbn [exec step]. destruct x as [| status | status data]; cbn [deliver exec].
  - rewrite (settle_Finish _ Rejected _ _ listFailed _ H0 eq_refl).
    eexists. split; [done |]. simpl. split_and!; try done. apply lookup_delete_eq.
  - rewrite (settle_Suspend _ (Response status) _ _ ListIndexJson None _ H0 eq_refl).
    erewrite (settle_Finish _ Rejected _ ListIndexJson listFailed);
      [| apply lookup_insert_eq | reflexivity].
    eexists. split; [done |]. simpl. split_and!; try done.
    + by rewrite app_nil_r.
    + apply lookup_delete_eq.
  - rewrite (settle_Suspend _ (Response status) _ _ ListIndexJson None _ H0 eq_refl).
    erewrite (settle_Finish _ (Body data) _ ListIndexJson listFailed rest);
      [| apply lookup_insert_eq |].
    + eexists. split; [done |]. simpl. split_and!; try done.
      * by rewrite app_nil_r.
      * apply lookup_delete_eq.
    + cbn [resume entropy fetchPokemonList start]. rewrite Hdraws.
      unfold sampleIndex, resultsOf. simpl in Hfail.
      by destruct (Js.get data "results") as [[] |].
Qed.

Lemma index_failure_fetches_no_preview_witness :
  ∃ m',
    exec (Refresh :: deliver 1 (Reply 200 (JObj [("detail", JStr "Not found.")])))
      (Fixture.after (Mount :: Fixture.listLoad 0 12 1)
         (Fixture.draws 12 0 ++ Fixture.draws 12 2)) = Ok m' ∧
    error (ui m') = Some listErrorMessage ∧
    pokemonList (ui m') = JArr (map Fixture.preview (seq 1 10)).
Proof.
  destruct (index_failure_fetches_no_preview
              (Fixture.after (Mount :: Fixture.listLoad 0 12 1)
                 (Fixture.draws 12 0 ++ Fixture.draws 12 2))
              (Reply 200 (JObj [("detail", JStr "Not found.")]))
              (171 # 1024)%Q (tail (Fixture.draws 12 2)))
    as (m' & Hrun & Herr & _ & Hlist & _).
  - reflexivity.
  - vm_compute. reflexivity.
  - exists m'. split_and!; [exact Hrun | exact Herr |].
    rewrite Hlist. vm_compute. reflexivity.
Defined.

(** The loop run to its end on previews that all arrive and parse. *)
Lemma previews_complete (cid status : nat) (rest : list jsval) :
  ∀ (m : machine) (pokemon : jsval) (acc bodies : list jsval),
    calls m !! cid = Some (ListItemResponse pokemon rest acc) →
    Forall fetchable rest →
    Forall2 parses (pokemon :: rest) bodies →
    ∃ m',
      exec (deliverAll cid (map (Reply status) bodies)) m = Ok m' ∧
      ui m' = listLoaded (acc ++ zip_with itemOf (pokemon :: rest) bodies) (ui m) ∧
      fetched m' = fetched m ++ map urlOf rest ∧
      calls m' !! cid = None.
Proof.
  induction rest as [| following rest IH];
    intros m pokemon acc bodies Hcall Hurls Hparse;
    apply Forall2_cons_inv_l in Hparse as (details & bodies' & Hfirst & Hparse & ->);
    unfold parses in Hfirst;
    destruct (previewItem pokemon details) as [item |] eqn:Hitem; try done;
    assert (Hit : itemOf pokemon details = item)
      by (unfold itemOf; by rewrite Hitem).
  - apply Forall2_nil_inv_l in Hparse as ->.
    destruct (preview_steps m cid pokemon [] acc) as (Hresp & _ & _).
    destruct (Hresp Hcall status) as (m1 & Hstep1 & Hf1 & Hc1 & Hui1).
    destruct (preview_steps m1 cid pokemon [] acc) as (_ & Hbody & _).
    destruct (Hbody Hc1 details item Hitem) as (m2 & Hstep2 & Hf2 & Hc2 & Hui2).
    exists m2. split_and!.
    + change (deliverAll cid (map (Reply status) [details]))
        with [Settle cid (Response status); Settle cid (Body details)].
      cbn [exec]. by rewrite Hstep1, Hstep2.
    + rewrite Hui2, Hui1. simpl. by rewrite Hit.
    + rewrite Hf2, Hf1. simpl. by rewrite app_nil_r.
    + exact Hc2.
  - apply Forall_cons in Hurls as [Hurl Hurls]. unfold fetchable in Hurl.
    destruct (Js.get following "url") as [url |] eqn:Hget; [| done].
    assert (Hu : urlOf following = url) by (unfold urlOf; by rewrite Hget).
    destruct (preview_steps m cid pokemon (following :: rest) acc)
      as (Hresp & _ & _).
    destruct (Hresp Hcall status) as (m1 & Hstep1 & Hf1 & Hc1 & Hui1).
    destruct (preview_steps m1 cid pokemon (following :: rest) acc)
      as (_ & Hbody & _).
    destruct (Hbody Hc1 details item Hitem url Hget)
      as (m2 & Hstep2 & Hf2 & Hc2 & Hui2).
    destruct (IH m2 following (acc ++ [item]) bodies' Hc2 Hurls Hparse)
      as (m' & Hrun & Hui & Hf & Hc).
    exists m'. split_and!.
    + change (deliverAll cid (map (Reply status) (details :: bodies')))
        with (Settle cid (Response status) :: Settle cid (Body details) ::
              deliverAll cid (map (Reply status) bodies')).
      cbn [exec]. rewrite Hstep1, Hstep2. exact Hrun.
    + rewrite Hui, Hui2, Hui1. f_equal. rewrite <- app_assoc. simpl.
      by rewrite Hit.
    + rewrite Hf, Hf2, Hf1. simpl. rewrite Hu. by rewrite <- app_assoc.
    + exact Hc.
Qed.

(** X13: a whole list load that succeeds.  From any state, a refresh whose
    index holds an array [results], on draws with which the sampler returns
    [randomPokemon], and whose ten previews all arrive and parse, ends with
    the list cell holding the ten preview objects in sample order, [loading]
    off and [error] [null]; it has fetched the index and then the ten entry
    URLs in sample order, eleven fetches in all, and the detail slot is as
    before. *)
Theorem list_load_succeeds (m : machine) (status status' : nat) (data : jsval)
    (results randomPokemon bodies : list jsval) (rest : list Q) :
  Js.get data "results" = Normal (JArr results) →
  sample (entropy m) results = Some (randomPokemon, rest) →
  Forall fetchable randomPokemon →
  Forall2 parses randomPokemon bodies →
  ∃ m',
    exec (Refresh :: deliver (next m) (Reply status data) ++
          deliverAll (next m) (map (Reply status') bodies)) m = Ok m' ∧
    pokemonList (ui m') = JArr (zip_with itemOf randomPokemon bodies) ∧
    length (zip_with itemOf randomPokemon bodies) = sampleSize ∧
    loading (ui m') = false ∧
    error (ui m') = None ∧
    detailCells (ui m') = detailCells (ui m) ∧
    fetched m' = fetched m ++ JStr indexUrl :: map urlOf randomPokemon ∧
    length (JStr indexUrl :: map urlOf randomPokemon) = 11 ∧
    calls m' !! next m = None.
Proof.
  intros Hres Hsample Hurls Hparse.
  pose proof (sample_nonempty _ _ _ _ Hsample) as Hten.
  destruct randomPokemon as [| pokemon others]; [discriminate |].
  apply Forall_cons in Hurls as [Hurl Hurls]. unfold fetchable in Hurl.
  destruct (Js.get pokemon "url") as [url |] eqn:Hget; [| done].
  assert (H0 : calls (fetchPokemonList m) !! next m = Some ListIndexResponse)
    by apply lookup_insert_eq.
  cbn [exec deliver app].
  change (step Refresh m) with (Ok (fetchPokemonList m)). cbn iota.
  rewrite (settle_Suspend _ (Response status) _ _ ListIndexJson None _ H0 eq_refl).
  erewrite (settle_Suspend _ (Body data) _ ListIndexJson
              (ListItemResponse pokemon others []));
    [| apply lookup_insert_eq
     | cbn [resume entropy]; unfold sampleIndex, resultsOf; rewrite Hres;
       cbn [fetchPokemonList start entropy]; rewrite Hsample;
       cbn [nextItem]; rewrite Hget; reflexivity].
  match goal with
  | |- ∃ _, exec _ ?m1 = _ ∧ _ =>
      destruct (previews_complete (next m) status' others m1 pokemon [] bodies)
        as (m' & Hrun & Hui & Hf & Hc);
        [simpl; apply lookup_insert_eq | exact Hurls | exact Hparse |]
  end.
  exists m'. split; [exact Hrun |].
  assert (Hu : urlOf pokemon = url) by (unfold urlOf; by rewrite Hget).
  rewrite Hui, Hf. split_and!.
  - reflexivity.
  - rewrite (length_zip_with_same_l _ _ _ _ Hparse). exact Hten.
  - reflexivity.
  - reflexivity.
  - reflexivity.
  - cbn [fetched fetchPokemonList start option_list map].
    rewrite app_nil_r, Hu, <- !app_assoc. reflexivity.
  - simpl. rewrite length_map. simpl in Hten. unfold sampleSize in Hten. lia.
  - exact Hc.
Qed.

Lemma list_load_succeeds_witness :
  ∃ m',
    exec (Refresh :: deliver 0 (Reply 200 (Fixture.index 12)) ++
          deliverAll 0 (map (Reply 200) (map Fixture.pokemon (seq 1 10))))
      (boot (Fixture.draws 12 0)) = Ok m' ∧
    pokemonList (ui m') = JArr (map Fixture.preview (seq 1 10)).
Proof.
  destruct (list_load_succeeds (boot (Fixture.draws 12 0)) 200 200
              (Fixture.index 12) (Fixture.entries 12) (Fixture.entries 10)
              (map Fixture.pokemon (seq 1 10)) [])
    as (m' & Hrun & Hlist & _).
  - reflexivity.
  - vm_compute. reflexivity.
  - repeat (constructor; [discriminate |]). constructor.
  - repeat (constructor; [discriminate |]). constructor.
  - exists m'. split; [exact Hrun |]. rewrite Hlist. vm_compute. reflexivity.
Defined.

(** X14: a whole expanded resolution that succeeds.  From any state, a
    selection whose primary record has a readable [species.url] and whose
    secondary record yields a description ends with the detail cell holding
    the primary record's fields with [description] set to a truthy value,
    every other field as in the primary record, [detailsLoading] off and
    [detailsError] [null]; it has fetched the selected URL and then the
    species URL, two fetches, and the list slot is as before. *)
Theorem expanded_resolution_succeeds (m : machine) (url : string)
    (status status' : nat) (data speciesData speciesLink record : jsval) :
  speciesUrl data = Normal speciesLink →
  detailRecord data speciesData = Normal record →
  ∃ m' o d,
    exec (Select url :: deliver (next m) (Reply status data) ++
          deliver (next m) (Reply status' speciesData)) m = Ok m' ∧
    selectedPokemon (ui m') = record ∧
    data = JObj o ∧
    record = JObj (Js.set "description" d o) ∧
    Js.truthy d = true ∧
    (∀ k, k ≠ "description" →
       Js.lookup k (Js.set "description" d o) = Js.lookup k o) ∧
    detailsLoading (ui m') = false ∧
    detailsError (ui m') = None ∧
    listCells (ui m') = listCells (ui m) ∧
    fetched m' = fetched m ++ [JStr url; speciesLink] ∧
    calls m' !! next m = None.
Proof.
  intros Hlink Hrec.
  destruct (speciesUrl_object data speciesLink Hlink) as [o ->].
  pose proof Hrec as Hrec'. unfold detailRecord in Hrec'.
  apply bind_Normal in Hrec' as (d & Hd & Hmerge). injection Hmerge as Hmerge.
  assert (H0 : calls (fetchPokemonDetails (JStr url) m) !! next m
               = Some DetailResponse) by apply lookup_insert_eq.
  cbn [exec deliver app].
  change (step (Select url) m) with (Ok (fetchPokemonDetails (JStr url) m)).
  cbn iota.
  rewrite (settle_Suspend _ (Response status) _ _ DetailJson None _ H0 eq_refl).
  erewrite (settle_Suspend _ (Body (JObj o)) _ DetailJson
              (SpeciesResponse (JObj o)) (Some speciesLink));
    [| apply lookup_insert_eq | cbn [resume]; by rewrite Hlink].
  erewrite (settle_Suspend _ (Response status') _ (SpeciesResponse (JObj o))
              (SpeciesJson (JObj o)) None);
    [| apply lookup_insert_eq | reflexivity].
  erewrite (settle_Finish _ (Body speciesData) _ (SpeciesJson (JObj o))
              (detailsLoaded record));
    [| apply lookup_insert_eq | cbn [resume]; by rewrite Hrec].
  eexists _, o, d. split; [reflexivity |]. split_and!.
  - reflexivity.
  - reflexivity.
  - by rewrite <- Hmerge.
  - by eapply description_truthy.
  - intros k Hk. by apply lookup_set_ne.
  - reflexivity.
  - reflexivity.
  - reflexivity.
  - cbn [fetched fetchPokemonDetails start option_list].
    rewrite !app_nil_r, <- !app_assoc. reflexivity.
  - cbn [calls]. apply lookup_delete_eq.
Qed.

Lemma expanded_resolution_succeeds_witness :
  ∃ m',
    exec (Select (Fixture.pokemonUrl 25) ::
          deliver 0 (Reply 200 (Fixture.pokemon 25)) ++
          deliver 0 (Reply 200 (Fixture.species [])))
      (boot []) = Ok m' ∧
    selectedPokemon (ui m') = Fixture.detail 25 noDescription.
Proof.
  destruct (expanded_resolution_succeeds (boot []) (Fixture.pokemonUrl 25) 200 200
              (Fixture.pokemon 25) (Fixture.species [])
              (JStr (Fixture.speciesUrlOf 25))
              (Fixture.detail 25 noDescription))
    as (m' & o & d & Hrun & Hsel & _).
  - reflexivity.
  - reflexivity.
  - by exists m'.
Defined.

(** ** When the property reads throw *)

Lemma get_throws_iff (v : jsval) (k : string) :
  Js.get v k = Throw ↔ nullish v = true.
Proof. by destruct v. Qed.

Lemma get_defined (v : jsval) (k : string) :
  nullish v = false → ∃ x, Js.get v k = Normal x.
Proof. destruct v; try discriminate; simpl; eauto. Qed.

(** X15: building a preview fails exactly when the sampled entry is [null]
    or [undefined], the fetched record is [null], or the record's [sprites]
    is missing or [null].  A record whose [sprites] lacks [front_default],
    or an entry without [name] or [url], is no failure: the property is
    [undefined] in the preview. *)
Theorem previewItem_throws_iff (pokemon details : jsval) :
  previewItem pokemon details = Throw ↔
  nullish pokemon = true ∨
  nullish details = true ∨
  ∃ sprites, Js.get details "sprites" = Normal sprites ∧ nullish sprites = true.
Proof.
  unfold previewItem.
  destruct (nullish pokemon) eqn:Hp.
  { split; [by left |]. intros _.
    apply (get_throws_iff pokemon "name") in Hp. by rewrite Hp. }
  destruct (get_defined pokemon "name" Hp) as [name ->].
  destruct (get_defined pokemon "url" Hp) as [url ->].
  cbn [mbind completion_bind].
  destruct (nullish details) eqn:Hd.
  { split; [right; by left |]. intros _.
    apply (get_throws_iff details "sprites") in Hd. by rewrite Hd. }
  destruct (get_defined details "sprites" Hd) as [sprites Hs]. rewrite Hs.
  cbn [mbind completion_bind].
  destruct (nullish sprites) eqn:Hn.
  - split.
    + intros _. right. right. by exists sprites.
    + intros _. apply (get_throws_iff sprites "front_default") in Hn.
      by rewrite Hn.
  - destruct (get_defined sprites "front_default" Hn) as [image ->].
    split; [discriminate |].
    intros [? | [? | (sprites' & [= <-] & Hn')]]; congruence.
Qed.

Lemma get0_throws_iff (v : jsval) : Js.get0 v = Throw ↔ nullish v = true.
Proof. by destruct v. Qed.

Lemma get0_defined (v : jsval) : nullish v = false → ∃ x, Js.get0 v = Normal x.
Proof. destruct v; try discriminate; simpl; eauto. Qed.

Lemma get_opt_defined (v : jsval) (k : string) : ∃ x, Js.get_opt v k = Normal x.
Proof. destruct v; simpl; eauto. Qed.

(** X16: computing the description fails exactly when the secondary record
    is [null] or its [flavor_text_entries] is missing or [null]; on every
    other record, whatever the field holds, it yields a truthy value. *)
Theorem description_throws_iff (speciesData : jsval) :
  (description speciesData = Throw ↔
   nullish speciesData = true ∨
   ∃ entries,
     Js.get speciesData "flavor_text_entries" = Normal entries ∧
     nullish entries = true) ∧
  (∀ d, description speciesData = Normal d → Js.truthy d = true).
Proof.
  split; [| intros d; apply description_truthy].
  unfold description.
  destruct (nullish speciesData) eqn:Hsd.
  { split; [by left |]. intros _.
    apply (get_throws_iff speciesData "flavor_text_entries") in Hsd.
    by rewrite Hsd. }
  destruct (get_defined speciesData "flavor_text_entries" Hsd) as [entries He].
  rewrite He. cbn [mbind completion_bind].
  destruct (nullish entries) eqn:Hn.
  - split.
    + intros _. right. by exists entries.
    + intros _. apply get0_throws_iff in Hn. by rewrite Hn.
  - destruct (get0_defined entries Hn) as [first ->].
    cbn [mbind completion_bind].
    destruct (get_opt_defined first "flavor_text") as [text ->].
    split; [discriminate |].
    intros [? | (entries' & [= <-] & Hn')]; congruence.
Qed.

(** ** A list load and an expanded resolution side by side *)

Lemma resume_Suspend_kind (c c' : call) (r : settlement) (e e' : list Q)
    (request : option jsval) :
  resume c r e = Suspend c' request e' → isListCall c' = isListCall c.
Proof.
  destruct c, r; simpl; try discriminate; try (by intros [= <- _ _]).
  - unfold sampleIndex.
    destruct (resultsOf v) as [results | | |]; try discriminate;
      [| by destruct e].
    destruct (sample e results) as [[randomPokemon e1] |]; [| discriminate].
    intros Hn. by apply nextItem_Suspend in Hn as (p & rest & -> & ->).
  - destruct (previewItem pokemon v); [| discriminate].
    intros Hn. by apply nextItem_Suspend in Hn as (p & rest' & -> & ->).
  - destruct (speciesUrl v); [| discriminate]. by intros [= <- _ _].
  - by destruct (detailRecord data v).
Qed.

Lemma completes_finishes (script : list settlement) :
  ∀ (c : call) (u : AppState → AppState),
    completes c script u →
    ∃ c' r, finishes c' r u ∧ isListCall c' = isListCall c.
Proof.
  induction script as [| r script IH]; intros c u Hcomp; [done |].
  destruct script as [| r' script].
  - exists c, r. split; [| done]. apply (resume_Finish c r [] []). apply Hcomp.
  - destruct Hcomp as (c1 & request & Hres & Hcomp).
    destruct (IH c1 u Hcomp) as (c' & r0 & Hfin & Hkind).
    exists c', r0. split; [done |]. rewrite Hkind.
    by apply (resume_Suspend_kind c c1 r [] [] request).
Qed.

Lemma finishes_commute (ca cb : call) (ra rb : settlement)
    (ua ub : AppState → AppState) :
  finishes ca ra ua → finishes cb rb ub →
  isListCall ca = true → isListCall cb = false →
  ∀ s, ua (ub s) = ub (ua s).
Proof.
  intros Ha Hb Hka Hkb s.
  destruct Ha as [ca ra Hca | | ca ra Hca |], Hb as [cb rb Hcb | | cb rb Hcb |];
    try done; try (by destruct ca); by destruct cb.
Qed.

(** X17: a list load and an expanded resolution that overlap do not disturb
    each other.  A suspended list call past its sampling and a suspended
    detail call both run to their ends, successful or not, their settlements
    interleaved in any order: the run goes through, and each slot ends
    exactly as if its own call had run alone. *)
Theorem overlapping_list_and_detail_commute (m : machine) (a b : nat)
    (ca cb : call) (xs ys : list settlement) (ua ub : AppState → AppState)
    (trace : list label) :
  a ≠ b →
  calls m !! a = Some ca →
  calls m !! b = Some cb →
  isListCall ca = true →
  isListCall cb = false →
  completes ca xs ua →
  completes cb ys ub →
  interleaved a b xs ys trace →
  ∃ m',
    exec trace m = Ok m' ∧
    ui m' = ua (ub (ui m)) ∧
    listCells (ui m') = listCells (ua (ui m)) ∧
    detailCells (ui m') = detailCells (ub (ui m)).
Proof.
  intros Hab Ha Hb Hka Hkb Hca Hcb Hil.
  destruct (duo_run a b ua ub xs ys trace Hab Hil ca cb m Ha Hb Hca Hcb)
    as (m' & Hrun & Hui).
  destruct (completes_finishes xs ca ua Hca) as (ca' & ra & Hfa & Hka').
  destruct (completes_finishes ys cb ub Hcb) as (cb' & rb & Hfb & Hkb').
  rewrite Hka in Hka'. rewrite Hkb in Hkb'.
  pose proof (finishes_commute ca' cb' ra rb ua ub Hfa Hfb Hka' Hkb') as Hcomm.
  assert (Hui' : ui m' = ua (ub (ui m))).
  { rewrite Hui. destruct (settlesLast a trace); [done | by rewrite Hcomm]. }
  pose proof (finishes_kind ca' ra ua Hfa) as Hframe_a. rewrite Hka' in Hframe_a.
  pose proof (finishes_kind cb' rb ub Hfb) as Hframe_b. rewrite Hkb' in Hframe_b.
  exists m'. split_and!; [exact Hrun | exact Hui' | |].
  - rewrite Hui', Hcomm. apply Hframe_b.
  - rewrite Hui'. apply Hframe_a.
Qed.

Lemma overlapping_list_and_detail_commute_witness :
  ∃ m',
    exec [Settle 1 (Response 200); Settle 0 Rejected;
          Settle 1 (Body (Fixture.pokemon 25)); Settle 1 (Response 200);
          Settle 1 (Body (Fixture.species ["text"]))]
      (Fixture.after
         (Mount :: deliver 0 (Reply 200 (Fixture.index 12)) ++
          [Select (Fixture.pokemonUrl 25)])
         (Fixture.draws 12 0)) = Ok m' ∧
    error (ui m') = Some listErrorMessage ∧
    selectedPokemon (ui m') = Fixture.detail 25 "text".
Proof.
  destruct (overlapping_list_and_detail_commute
              (Fixture.after
                 (Mount :: deliver 0 (Reply 200 (Fixture.index 12)) ++
                  [Select (Fixture.pokemonUrl 25)])
                 (Fixture.draws 12 0))
              0 1
              (ListItemResponse (Fixture.entry 1) (map Fixture.entry (seq 2 9)) [])
              DetailResponse
              [Rejected]
              [Response 200; Body (Fixture.pokemon 25);
               Response 200; Body (Fixture.species ["text"])]
              listFailed
              (detailsLoaded (Fixture.detail 25 "text"))
              [Settle 1 (Response 200); Settle 0 Rejected;
               Settle 1 (Body (Fixture.pokemon 25)); Settle 1 (Response 200);
               Settle 1 (Body (Fixture.species ["text"]))])
    as (m' & Hrun & Hui & _).
  - discriminate.
  - vm_compute. reflexivity.
  - vm_compute. reflexivity.
  - reflexivity.
  - reflexivity.
  - by intros e.
  - by apply (expanded_completes _ _ _ (JStr (Fixture.speciesUrlOf 25))).
  - apply interleaved_b, interleaved_a. apply (interleaved_right 0 1).
  - exists m'. split; [exact Hrun |]. rewrite Hui. split; reflexivity.
Defined.
